(** * skynet: the semantic logger (semantic_logger.go)

    A shallow embedding of the log record, the severity levels, the
    stack helpers and the multi-sink dispatcher of package [skynet],
    with the properties of its specification. *)

From Stdlib Require Import ZArith String Ascii DecimalString.
From stdpp Require Import base tactics option list gmap strings.
From Equations Require Import Equations.

Local Open Scope Z_scope.
Local Open Scope string_scope.
Local Open Scope list_scope.

(** ** Go values *)

(** The line feed, Go's ["\n"]. *)
Definition LF : string := String "010"%char EmptyString.

(** [strings.Join(elems, sep)]. *)
Definition strings_Join (elems : list string) (sep : string) : string :=
  String.concat sep elems.

(** An [error] value, by its message. *)
Definition error := string.

(** A [time.Time] and a [time.Duration], in nanoseconds. *)
Definition time_Time := Z.
Definition time_Duration := Z.

(** Addresses of heap-allocated payloads ([*LogPayload]).  An address with
    no payload in the heap is the nil pointer. *)
Definition loc := nat.

(** ** Severity levels *)

(** [type LogLevel int].  Go's [int] is a machine integer; no operation of
    this package does arithmetic on a level, so it is kept as a [Z]. *)
Definition LogLevel := Z.

Definition TRACE : LogLevel := 0.
Definition DEBUG : LogLevel := 1.
Definition INFO : LogLevel := 2.
Definition WARN : LogLevel := 3.
Definition ERROR : LogLevel := 4.
Definition FATAL : LogLevel := 5.

Definition LogLevels : list LogLevel :=
  [TRACE; DEBUG; INFO; WARN; ERROR; FATAL].

(** [int(level) < int(level2)]. *)
Definition LogLevel_LessSevereThan (level level2 : LogLevel) : bool :=
  (level <? level2)%Z.

(** One [case a, b, ...:] clause of a [switch level]. *)
Definition switch_case (level : LogLevel) (cases : list LogLevel) : bool :=
  existsb (Z.eqb level) cases.

Definition LogLevel_String (level : LogLevel) : string :=
  if switch_case level [TRACE] then "TRACE"
  else if switch_case level [DEBUG] then "DEBUG"
  else if switch_case level [INFO] then "INFO"
  else if switch_case level [WARN] then "WARN"
  else if switch_case level [ERROR] then "ERROR"
  else if switch_case level [FATAL] then "FATAL"
  else "CUSTOM".

(** ** The log record *)

Record LogPayload := mkLogPayload {
  Level : LogLevel;
  Message : string;
  Action : string;
  Application : string;
  PID : Z;
  Time : time_Time;
  HostName : string;
  Tags : list string;
  Name : string;
  UUID : string;
  Table : string;
  Backtrace : list string;
  Duration : time_Duration;
  ThreadName : string
}.

(** The zero value of the struct. *)
Definition LogPayload_zero : LogPayload :=
  mkLogPayload 0 "" "" "" 0 0 "" [] "" "" "" [] 0 "".

(** Field assignments [payload.F = v]. *)
Definition set_Application (v : string) (r : LogPayload) : LogPayload :=
  mkLogPayload (Level r) (Message r) (Action r) v (PID r) (Time r)
    (HostName r) (Tags r) (Name r) (UUID r) (Table r) (Backtrace r)
    (Duration r) (ThreadName r).

Definition set_PID (v : Z) (r : LogPayload) : LogPayload :=
  mkLogPayload (Level r) (Message r) (Action r) (Application r) v (Time r)
    (HostName r) (Tags r) (Name r) (UUID r) (Table r) (Backtrace r)
    (Duration r) (ThreadName r).

Definition set_Time (v : time_Time) (r : LogPayload) : LogPayload :=
  mkLogPayload (Level r) (Message r) (Action r) (Application r) (PID r) v
    (HostName r) (Tags r) (Name r) (UUID r) (Table r) (Backtrace r)
    (Duration r) (ThreadName r).

Definition set_HostName (v : string) (r : LogPayload) : LogPayload :=
  mkLogPayload (Level r) (Message r) (Action r) (Application r) (PID r)
    (Time r) v (Tags r) (Name r) (UUID r) (Table r) (Backtrace r)
    (Duration r) (ThreadName r).

Definition set_Tags (v : list string) (r : LogPayload) : LogPayload :=
  mkLogPayload (Level r) (Message r) (Action r) (Application r) (PID r)
    (Time r) (HostName r) v (Name r) (UUID r) (Table r) (Backtrace r)
    (Duration r) (ThreadName r).

(** ** The process and the Go runtime *)

(** A frame of the goroutine's call stack, as [runtime.Caller] reports it. *)
Record Frame := mkFrame {
  frame_pc : Z;
  frame_file : string;
  frame_line : Z
}.

(** What the code reads from its surroundings: the heap of payloads, the
    process ([os.Args], [os.Getpid], [os.Hostname], [time.Now]), the
    runtime's table of functions by program counter, and the lines written
    to the standard logger of package [log]. *)
Record World := mkWorld {
  heap : gmap loc LogPayload;
  os_Args : list string;
  os_pid : Z;
  clock : time_Time;
  hostname : string + error;
  symtab : gmap Z string;
  log_std : list string
}.

Definition set_heap (h : gmap loc LogPayload) (w : World) : World :=
  mkWorld h (os_Args w) (os_pid w) (clock w) (hostname w) (symtab w)
    (log_std w).

Definition set_log_std (l : list string) (w : World) : World :=
  mkWorld (heap w) (os_Args w) (os_pid w) (clock w) (hostname w) (symtab w) l.

(** ** Panics and state *)

(** The value a panic carries. *)
Inductive PanicValue :=
| PanicPayload (payload : loc)
| PanicRuntime (msg : string).

Inductive Outcome (S A : Type) :=
| Returned (a : A) (s : S)
| Panicked (v : PanicValue) (s : S).
Arguments Returned {S A} a s.
Arguments Panicked {S A} v s.

(** A Go computation over a state [S]: it returns, or it panics. *)
Definition M (S A : Type) : Type := S → Outcome S A.

#[global] Instance M_ret {S} : MRet (M S) := λ A a s, Returned a s.
#[global] Instance M_bind {S} : MBind (M S) := λ A B f m s,
  match m s with
  | Returned a s' => f a s'
  | Panicked v s' => Panicked v s'
  end.

Definition panic {S A} (v : PanicValue) : M S A := λ s, Panicked v s.
Definition gets {S A} (f : S → A) : M S A := λ s, Returned (f s) s.
Definition modify {S} (f : S → S) : M S unit := λ s, Returned tt (f s).

Definition nil_dereference : PanicValue :=
  PanicRuntime "invalid memory address or nil pointer dereference".
Definition index_out_of_range : PanicValue :=
  PanicRuntime "index out of range".

(** Reading through a [*LogPayload]. *)
Definition deref (p : loc) : M World LogPayload := λ w,
  match heap w !! p with
  | Some r => Returned r w
  | None => Panicked nil_dereference w
  end.

(** Writing a field through a [*LogPayload]. *)
Definition update (p : loc) (f : LogPayload → LogPayload) : M World unit :=
  r ← deref p; modify (λ w, set_heap (<[p := f r]> (heap w)) w).

(** [&LogPayload{...}]: a fresh address holding the value. *)
Definition alloc (r : LogPayload) : M World loc := λ w,
  let p := fresh (dom (heap w)) in
  Returned p (set_heap (<[p := r]> (heap w)) w).

(** A value together with the equation that it is the scrutinee's. *)
Definition inspect {A} (a : A) : {b : A | a = b} := exist _ a eq_refl.

(** [for _, x := range xs { body x }]. *)
Fixpoint for_range {S A} (xs : list A) (body : A → M S unit) : M S unit :=
  match xs with
  | [] => mret tt
  | x :: xs' => body x;; for_range xs' body
  end.

(** ** Package fmt *)

(** [fmt.Sprintf] belongs to Go's library.  It is taken as an interface: the
    operands ([interface{}] values, with the three kinds this package
    passes itself) and a formatter that returns a string for every format
    and every operand list; the library recovers from panics raised while
    it prints an operand, so that no call of it panics. *)
Class Fmt := {
  any : Type;
  any_string : string → any;
  any_int : Z → any;
  any_error : error → any;
  Sprintf : string → list any → string
}.

(** The operands of the verbs [%s] and [%d]. *)
Inductive operand :=
| OpString (s : string)
| OpInt (n : Z).

Definition any_of `{Fmt} (o : operand) : any :=
  match o with
  | OpString s => any_string s
  | OpInt n => any_int n
  end.

(** [%d] of an [int]: its decimal digits, with a minus sign below zero. *)
Definition decimal (n : Z) : string := NilZero.string_of_int (Z.to_int n).

(** The part of the formatting rules the package's own format strings
    need: text is copied, [%s] writes a string operand as it is, [%d] an
    integer operand in decimal, [%%] a percent sign.  [None] on any other
    directive and when the operands do not match the directives. *)
Fixpoint verbs (format : string) (ops : list operand) : option string :=
  match format with
  | EmptyString =>
      match ops with
      | [] => Some EmptyString
      | _ :: _ => None
      end
  | String "%" EmptyString => None
  | String "%" (String verb rest) =>
      match verb, ops with
      | "s"%char, OpString s :: ops' => String.append s <$> verbs rest ops'
      | "d"%char, OpInt n :: ops' => String.append (decimal n) <$> verbs rest ops'
      | "%"%char, _ => String "%" <$> verbs rest ops
      | _, _ => None
      end
  | String c rest => String c <$> verbs rest ops
  end.

(** The formatter follows the rules above wherever they apply. *)
Class FmtVerbs `{Fmt} : Prop :=
  Sprintf_verbs : ∀ format ops out,
    verbs format ops = Some out → Sprintf format (any_of <$> ops) = out.

(** A formatter for the verbs above, which leaves any other format string
    as it is. *)
Definition verbs_fmt : Fmt := {|
  any := operand;
  any_string := OpString;
  any_int := OpInt;
  any_error := OpString;
  Sprintf format ops := default format (verbs format ops)
|}.

(** ** Package runtime *)

(** [runtime.Caller(skip)] on a goroutine whose call stack is [stack],
    innermost frame first: frame 0 is the function that calls
    [runtime.Caller].  Past the outermost frame it reports [ok = false]
    with zero values. *)
Definition runtime_Caller (stack : list Frame) (skip : nat)
  : Z * string * Z * bool :=
  match stack !! skip with
  | Some fr => (frame_pc fr, frame_file fr, frame_line fr, true)
  | None => (0, "", 0, false)
  end.

(** [runtime.FuncForPC(pc)]: the function containing [pc], by its name, or
    nil. *)
Definition runtime_FuncForPC (w : World) (pc : Z) : option string :=
  symtab w !! pc.

(** Method [Name] of a [runtime.Func] pointer; on nil it is empty. *)
Definition Func_Name (f : option string) : string := default "" f.

(** The frames the package's functions push when they are called. *)
Definition frame_getCallerName : Frame := mkFrame 1 "semantic_logger.go" 103.
Definition frame_genStacktrace : Frame := mkFrame 2 "semantic_logger.go" 227.

(** ** The package, over a formatter *)

Section Package.
Context `{Fmt}.

Definition LogPayload_Exception (payload : loc) : M World string :=
  r ← deref payload;
  let formatStr := "%s -- %s: %s" +:+ LF +:+ "%s" in
  let backtrace := strings_Join (Backtrace r) LF in
  mret (Sprintf formatStr
          [any_string (Message r); any_string "panic";
           any_string (Message r); any_string backtrace]).

(** [os.Args[0]]. *)
Definition os_Args_0 : M World string := λ w,
  match os_Args w !! 0%nat with
  | Some a => Returned a w
  | None => Panicked index_out_of_range w
  end.

(** [os.Hostname()]: the name and a nil error, or the empty name and the
    error. *)
Definition os_Hostname : M World (string * option error) :=
  gets (λ w, match hostname w with
             | inl name => (name, None)
             | inr err => ("", Some err)
             end).

(** [log.Printf(format, v...)]: one more line on the standard logger. *)
Definition log_Printf (format : string) (v : list any) : M World unit :=
  modify (λ w, set_log_std (log_std w ++ [Sprintf format v]) w).

Definition LogPayload_setKnownFields (payload : loc) : M World unit :=
  r ← deref payload;
  (if decide (Application r = "")
   then a ← os_Args_0; update payload (set_Application a)
   else mret tt);;
  pid ← gets os_pid;
  update payload (set_PID pid);;
  now ← gets clock;
  update payload (set_Time now);;
  '(hostname, err) ← os_Hostname;
  match err with
  | Some e => log_Printf ("Error getting hostname: %v" +:+ LF) [any_error e]
  | None => mret tt
  end;;
  update payload (set_HostName hostname).

Definition LogPayload_SetTags (payload : loc) (tags : list string)
  : M World unit :=
  update payload (set_Tags tags).

(** [stack] is the call stack at the call of [runtime.Caller]. *)
Definition getCallerName (stack : list Frame) (skip : nat) : M World string :=
  let '(pc, _, _, _) := runtime_Caller stack skip in
  f ← gets (λ w, runtime_FuncForPC w pc);
  mret (Func_Name f).

(** [stack] is the call stack inside [NewLogPayload]: its own frame first,
    then its caller's. *)
Definition NewLogPayload (stack : list Frame) (level : LogLevel)
    (formatStr : string) (vars : list any) : M World loc :=
  let message := Sprintf formatStr vars in
  action ← getCallerName (frame_getCallerName :: stack) 2;
  alloc (mkLogPayload level message action "" 0 0 "" [] "" "" "" [] 0 "").

End Package.

Section Stacktrace.
Context `{Fmt}.

(** The loop of [genStacktrace], from [skip] on: it stops when
    [runtime.Caller] reports [ok = false]. *)
Equations? genStacktrace_loop (w : World) (stack : list Frame) (skip : nat)
    (stacktrace : list string) : list string
    by wf (length stack - skip)%nat lt :=
  genStacktrace_loop w stack skip stacktrace
    with inspect (runtime_Caller stack skip) := {
    | exist _ (pc, file, line, true) e =>
        let f := runtime_FuncForPC w pc in
        let traceLine :=
          Sprintf ("%s:%d %s()" +:+ LF)
            [any_string file; any_int line; any_string (Func_Name f)] in
        genStacktrace_loop w stack (S skip) (stacktrace ++ [traceLine])
    | exist _ (_, _, _, false) e => stacktrace }.
Proof.
  unfold runtime_Caller in e.
  destruct (stack !! skip) eqn:E; [|discriminate].
  apply lookup_lt_Some in E. lia.
Qed.

(** [stack] is the call stack inside [genStacktrace]: its own frame first. *)
Definition genStacktrace (stack : list Frame) : M World (list string) :=
  gets (λ w, genStacktrace_loop w stack 1 []).

End Stacktrace.

(** ** Sinks and the multi-sink dispatcher *)

(** [type SemanticLogger interface]: a sink, by what its methods do to the
    world.  A method may return or panic.  [BenchmarkInfo] takes a
    function over sinks and is left out: no property below concerns it. *)
Record SemanticLogger := mkSemanticLogger {
  Log : loc → M World unit;
  Fatal : loc → M World unit
}.

Inductive Method := MLog | MFatal.

Definition method (m : Method) : SemanticLogger → loc → M World unit :=
  match m with
  | MLog => Log
  | MFatal => Fatal
  end.

(** One method call made on a sink: which method, of which sink, with
    which [*LogPayload]. *)
Record Call := mkCall {
  call_method : Method;
  call_logger : SemanticLogger;
  call_payload : loc
}.

(** The dispatcher runs over the world and the calls it has made so far,
    oldest first. *)
Record Machine := mkMachine {
  world : World;
  calls : list Call
}.

(** [lgr.m(payload)]: the call is noted, then the sink's method runs. *)
Definition invoke (m : Method) (lgr : SemanticLogger) (payload : loc)
  : M Machine unit := λ s,
  let calls' := calls s ++ [mkCall m lgr payload] in
  match method m lgr payload (world s) with
  | Returned a w' => Returned a (mkMachine w' calls')
  | Panicked v w' => Panicked v (mkMachine w' calls')
  end.

(** [type MultiSemanticLogger []SemanticLogger]. *)
Definition MultiSemanticLogger := list SemanticLogger.

Definition NewMultiSemanticLogger (loggers : list SemanticLogger)
  : MultiSemanticLogger := loggers.

Definition MultiSemanticLogger_Log (ml : MultiSemanticLogger)
    (level : LogLevel) (msg : string) (payload : loc) : M Machine unit :=
  if switch_case level [TRACE; DEBUG; INFO; WARN; ERROR; FATAL]
  then for_range ml (λ lgr, invoke MLog lgr payload)
  else (* default: fallthrough *)
    for_range ml (λ lgr, invoke MLog lgr payload).

Definition MultiSemanticLogger_Fatal (ml : MultiSemanticLogger)
    (level : LogLevel) (msg : string) (payload : loc) : M Machine unit :=
  (if switch_case level [TRACE; DEBUG; INFO; WARN; ERROR; FATAL]
   then for_range ml (λ lgr, invoke MLog lgr payload)
   else mret tt);;
  panic (PanicPayload payload).

(** ** What the properties speak of *)

(** The world a sink's [Log] leaves, however it ends. *)
Definition world_after {A} (o : Outcome World A) : World :=
  match o with
  | Returned _ w => w
  | Panicked _ w => w
  end.

(** The world after the sinks' own [Log] methods have run in sequence. *)
Definition logged (payload : loc) (ml : MultiSemanticLogger) (w : World)
  : World :=
  foldl (λ w lgr, world_after (Log lgr payload w)) w ml.

(** The calls that deliver [payload] to every sink of [ml] through [Log],
    once each, in the order of [ml]. *)
Definition deliveries (ml : MultiSemanticLogger) (payload : loc) : list Call :=
  (λ lgr, mkCall MLog lgr payload) <$> ml.

(** Every sink of [ml] returns from [Log], whatever it is given. *)
Definition sinks_return (ml : MultiSemanticLogger) : Prop :=
  Forall (λ lgr, ∀ payload w, ∃ w', Log lgr payload w = Returned tt w') ml.

(** A sink that keeps nothing and returns. *)
Definition discard : SemanticLogger :=
  mkSemanticLogger (λ _, mret tt) (λ payload, panic (PanicPayload payload)).

(** A sink whose [Log] fills the known fields of the payload, as the
    payload's documentation asks of [Log] methods. *)
Definition known_fields_sink `{Fmt} : SemanticLogger :=
  mkSemanticLogger
    (λ payload, LogPayload_setKnownFields payload)
    (λ payload, LogPayload_setKnownFields payload;;
                panic (PanicPayload payload)).

(** The exception text, as the specification writes it. *)
Definition exception_text (r : LogPayload) : string :=
  Message r +:+ " -- panic: " +:+ Message r +:+ LF +:+
  strings_Join (Backtrace r) LF.

(** What [os.Hostname] resolves to: the name, or nothing on failure. *)
Definition resolved_hostname (w : World) : string :=
  match hostname w with
  | inl name => name
  | inr _ => ""
  end.

(** The record [before], with its known fields filled in the world [w]:
    the application is the program's invocation name if it was empty, the
    pid, the time and the host name are the process's. *)
Definition known_fields_filled (w : World) (before after : LogPayload)
  : Prop :=
  Application after =
    (if decide (Application before = "")
     then default "" (os_Args w !! 0%nat) else Application before) ∧
  PID after = os_pid w ∧
  Time after = clock w ∧
  HostName after = resolved_hostname w.

(** The record [r] after [setKnownFields] in the world [w]. *)
Definition known_fields (w : World) (r : LogPayload) : LogPayload :=
  set_HostName (resolved_hostname w)
    (set_Time (clock w)
       (set_PID (os_pid w)
          (if decide (Application r = "")
           then set_Application (default "" (os_Args w !! 0%nat)) r
           else r))).

(** The name [runtime.FuncForPC] gives for a frame. *)
Definition frame_function (w : World) (fr : Frame) : string :=
  Func_Name (runtime_FuncForPC w (frame_pc fr)).

(** A frame as ["file:line functionName()"]. *)
Definition frame_descriptor (w : World) (fr : Frame) : string :=
  frame_file fr +:+ ":" +:+ decimal (frame_line fr) +:+ " " +:+
  frame_function w fr +:+ "()".

Section Vocabulary.
Context `{Fmt}.

(** The line [setKnownFields] writes to the standard logger when the host
    name does not resolve. *)
Definition hostname_diagnostic (w : World) : list string :=
  match hostname w with
  | inl _ => []
  | inr e => [Sprintf ("Error getting hostname: %v" +:+ LF) [any_error e]]
  end.

(** The world after [n] runs of [setKnownFields] on the payload. *)
Definition finalized (payload : loc) (r : LogPayload) (n : nat) (w : World)
  : World :=
  mkWorld (<[payload := known_fields w r]> (heap w)) (os_Args w) (os_pid w)
    (clock w) (hostname w) (symtab w)
    (log_std w ++ mjoin (replicate n (hostname_diagnostic w))).

(** The line [genStacktrace] formats for a frame. *)
Definition traceLine (w : World) (fr : Frame) : string :=
  Sprintf ("%s:%d %s()" +:+ LF)
    [any_string (frame_file fr); any_int (frame_line fr);
     any_string (frame_function w fr)].

End Vocabulary.

(** ** Sample data *)

(** A world with one payload, at address 1, in a process started as
    [skynet] on host [node1]. *)
Definition world_of (r : LogPayload) : World :=
  mkWorld {[ 1%nat := r ]} ["skynet"] 4242 1700000000 (inl "node1")
    {[ 10 := "main.g"; 20 := "main.h" ]} [].

(** A fatal record with two frames of backtrace. *)
Definition boom : LogPayload :=
  mkLogPayload FATAL "boom" "" "" 0 0 "" [] "" "" ""
    ["f.go:10 g()"; "f.go:20 h()"] 0 "".

(** A stack inside [genStacktrace], called from [main.g], called from
    [main.h]. *)
Definition stack_g_h : list Frame :=
  [frame_genStacktrace; mkFrame 10 "f.go" 10; mkFrame 20 "f.go" 20].

(** ** Benchmarking *)

(** The third method of the [SemanticLogger] interface,
    [BenchmarkInfo(level, msg, f)], of a sink.  [Func] is the type of the Go
    function values [func(logger SemanticLogger)]; the dispatcher hands its
    [f] on to the sinks and never calls it. *)
Record Benchmarker (Func : Type) := mkBenchmarker {
  benchmarker_sink : SemanticLogger;
  BenchmarkInfo : LogLevel → string → Func → M World unit
}.
Arguments mkBenchmarker {Func} _ _.
Arguments benchmarker_sink {Func} _.
Arguments BenchmarkInfo {Func} _ _ _ _.

(** One call of [BenchmarkInfo] made on a sink, with its arguments. *)
Record BenchmarkCall (Func : Type) := mkBenchmarkCall {
  benchmark_logger : Benchmarker Func;
  benchmark_level : LogLevel;
  benchmark_msg : string;
  benchmark_f : Func
}.
Arguments mkBenchmarkCall {Func} _ _ _ _.

(** The world and the [BenchmarkInfo] calls made so far, oldest first. *)
Record BenchmarkMachine (Func : Type) := mkBenchmarkMachine {
  benchmark_world : World;
  benchmark_calls : list (BenchmarkCall Func)
}.
Arguments mkBenchmarkMachine {Func} _ _.
Arguments benchmark_world {Func} _.
Arguments benchmark_calls {Func} _.

(** [lgr.BenchmarkInfo(level, msg, f)]: the call is noted, then the sink's
    method runs. *)
Definition invoke_BenchmarkInfo {Func} (lgr : Benchmarker Func)
    (level : LogLevel) (msg : string) (f : Func)
  : M (BenchmarkMachine Func) unit := λ s,
  let calls' :=
    benchmark_calls s ++ [mkBenchmarkCall lgr level msg f] in
  match BenchmarkInfo lgr level msg f (benchmark_world s) with
  | Returned a w' => Returned a (mkBenchmarkMachine w' calls')
  | Panicked v w' => Panicked v (mkBenchmarkMachine w' calls')
  end.

Definition MultiSemanticLogger_BenchmarkInfo {Func}
    (ml : list (Benchmarker Func)) (level : LogLevel) (msg : string)
    (f : Func) : M (BenchmarkMachine Func) unit :=
  for_range ml (λ lgr, invoke_BenchmarkInfo lgr level msg f).

(** ** More of what the properties speak of *)

(** The state a computation ends in, however it ends. *)
Definition outcome_state {S A} (o : Outcome S A) : S :=
  match o with
  | Returned _ s => s
  | Panicked _ s => s
  end.

(** The name [NewLogPayload] records as action when it runs on [stack]: the
    function of the frame after its own, or of the program counter 0 when
    there is no such frame. *)
Definition caller_name (stack : list Frame) (w : World) : string :=
  Func_Name (runtime_FuncForPC w (default 0 (frame_pc <$> stack !! 1%nat))).

(** A sink whose [Log] panics. *)
Definition faulty : SemanticLogger :=
  mkSemanticLogger (λ _, panic (PanicRuntime "sink failed"))
                   (λ payload, panic (PanicPayload payload)).

(** The [BenchmarkInfo] calls that hand [level], [msg] and [f] to every
    sink of [ml], once each, in the order of [ml]. *)
Definition benchmarks {Func} (ml : list (Benchmarker Func))
    (level : LogLevel) (msg : string) (f : Func) : list (BenchmarkCall Func) :=
  (λ lgr, mkBenchmarkCall lgr level msg f) <$> ml.

(** A sink whose [BenchmarkInfo] returns at once. *)
Definition idle : Benchmarker nat :=
  mkBenchmarker discard (λ _ _ _, mret tt).

(** The world [w] at the time [now]. *)
Definition set_clock (now : time_Time) (w : World) : World :=
  mkWorld (heap w) (os_Args w) (os_pid w) now (hostname w) (symtab w)
    (log_std w).

(** A stack inside [NewLogPayload], called from [main.g], called from
    [main.h]. *)
Definition stack_new_g_h : list Frame :=
  [mkFrame 3 "semantic_logger.go" 92; mkFrame 10 "f.go" 10;
   mkFrame 20 "f.go" 20].

(** A world like [world_of r] whose host name does not resolve. *)
Definition world_unresolved (r : LogPayload) : World :=
  mkWorld {[ 1%nat := r ]} ["skynet"] 4242 1700000000
    (inr "no such host") {[ 10 := "main.g"; 20 := "main.h" ]} [].

(** A world like [world_of r] in a process started without arguments. *)
Definition world_no_args (r : LogPayload) : World :=
  mkWorld {[ 1%nat := r ]} [] 4242 1700000000 (inl "node1")
    {[ 10 := "main.g"; 20 := "main.h" ]} [].

(** ** Sinks that return along a run *)

(** The sinks of [ml] return from [Log] when they are called in turn on
    [payload], the first on the world [w] and each next one on the world
    the one before it left. *)
Fixpoint sinks_return_from (payload : loc) (ml : MultiSemanticLogger)
    (w : World) : Prop :=
  match ml with
  | [] => True
  | lgr :: ml' =>
      ∃ w', Log lgr payload w = Returned tt w' ∧
            sinks_return_from payload ml' w'
  end.

(** ** The formatter of the specification *)





(** * Properties *)

(** ** Severity levels *)

Lemma switch_case_elem_of level cases :
  switch_case level cases = true ↔ level ∈ cases.
Proof.
  unfold switch_case. rewrite existsb_exists. split.
  - intros (x & Hx & E). apply Z.eqb_eq in E. subst. by apply list_elem_of_In.
  - intros Hx. exists level. split; [by apply list_elem_of_In|apply Z.eqb_refl].
Qed.

Lemma switch_case_not_elem_of level cases :
  level ∉ cases → switch_case level cases = false.
Proof.
  intros Hn. destruct (switch_case level cases) eqn:E; [|done].
  by apply switch_case_elem_of in E.
Qed.

(** C5. [LessSevereThan] is the strict order of the ordinals: for any two
    levels, custom ones included, [a.LessSevereThan(b)] is true exactly
    when [a]'s ordinal is below [b]'s; the standard levels have the
    ordinals 0 to 5 in the order TRACE, DEBUG, INFO, WARN, ERROR, FATAL, so
    that among them the 15 pairs that go up this order are the true ones. *)
Theorem LessSevereThan_iff_ordinal_lt :
  (∀ a b : LogLevel, LogLevel_LessSevereThan a b = true ↔ (a < b)%Z) ∧
  LogLevels = [0; 1; 2; 3; 4; 5]%Z ∧
  fmap (λ a, fmap (LogLevel_LessSevereThan a) LogLevels) LogLevels =
    [ [false; true; true; true; true; true];
      [false; false; true; true; true; true];
      [false; false; false; true; true; true];
      [false; false; false; false; true; true];
      [false; false; false; false; false; true];
      [false; false; false; false; false; false] ].
Proof.
  split; [|split; reflexivity].
  intros a b. unfold LogLevel_LessSevereThan. apply Z.ltb_lt.
Qed.

(** C7. The display name is defined for every level: the six standard
    levels have their literal names, every other level is ["CUSTOM"]. *)
Theorem LogLevel_String_total :
  fmap LogLevel_String LogLevels =
    ["TRACE"; "DEBUG"; "INFO"; "WARN"; "ERROR"; "FATAL"] ∧
  (∀ level : LogLevel, level ∉ LogLevels → LogLevel_String level = "CUSTOM").
Proof.
  split; [reflexivity|].
  intros level Hn. unfold LogLevel_String.
  rewrite !switch_case_not_elem_of; [done|..];
    intros E%list_elem_of_singleton; subst; apply Hn; unfold LogLevels;
    set_solver.
Qed.

Lemma LogLevel_String_total_witness :
  (6 ∉ LogLevels) ∧ LogLevel_String 6 = "CUSTOM".
Proof.
  assert (Hn : 6 ∉ LogLevels).
  { intros E%switch_case_elem_of. vm_compute in E. discriminate. }
  split; [exact Hn|].
  exact (proj2 LogLevel_String_total 6 Hn).
Defined.

(** ** Reading and writing through a payload pointer *)

Lemma bind_Returned {S A B} (m : M S A) (k : A → M S B) s a s' :
  m s = Returned a s' → (m ≫= k) s = k a s'.
Proof. intros E. unfold mbind, M_bind. by rewrite E. Qed.

Lemma bind_Panicked {S A B} (m : M S A) (k : A → M S B) s v s' :
  m s = Panicked v s' → (m ≫= k) s = Panicked v s'.
Proof. intros E. unfold mbind, M_bind. by rewrite E. Qed.

Lemma deref_Some p r w : heap w !! p = Some r → deref p w = Returned r w.
Proof. intros E. unfold deref. by rewrite E. Qed.

Lemma update_Some p f r w :
  heap w !! p = Some r →
  update p f w = Returned tt (set_heap (<[p := f r]> (heap w)) w).
Proof.
  intros E. unfold update. by rewrite (bind_Returned _ _ _ _ _ (deref_Some _ _ _ E)).
Qed.

Lemma heap_set_heap h w : heap (set_heap h w) = h.
Proof. reflexivity. Qed.

Lemma set_heap_set_heap h h' w : set_heap h (set_heap h' w) = set_heap h w.
Proof. reflexivity. Qed.

(** ** The record *)

Lemma SetTags_run payload tags r w :
  heap w !! payload = Some r →
  LogPayload_SetTags payload tags w =
    Returned tt (set_heap (<[payload := set_Tags tags r]> (heap w)) w).
Proof. apply update_Some. Qed.

(** C8. [SetTags] replaces the tags of the record by its arguments: after
    [SetTags(tags1...)] and then [SetTags(tags2...)] the record's tags are
    exactly [tags2], whatever they were before, and no other field of the
    record and nothing else in the world has changed. *)
Theorem SetTags_replaces payload r tags1 tags2 w :
  heap w !! payload = Some r →
  ∃ w',
    (LogPayload_SetTags payload tags1;; LogPayload_SetTags payload tags2) w
      = Returned tt w' ∧
    w' = set_heap (<[payload := set_Tags tags2 r]> (heap w)) w ∧
    Tags <$> heap w' !! payload = Some tags2.
Proof.
  intros E. eexists. split; [|split; [reflexivity|]].
  - rewrite (bind_Returned _ _ _ _ _ (SetTags_run _ tags1 _ _ E)).
    rewrite (SetTags_run _ tags2 (set_Tags tags1 r)).
    + rewrite heap_set_heap, set_heap_set_heap, insert_insert_eq. reflexivity.
    + rewrite heap_set_heap. apply lookup_insert_eq.
  - rewrite heap_set_heap, lookup_insert_eq. reflexivity.
Qed.

Lemma SetTags_replaces_witness :
  ∃ w',
    (LogPayload_SetTags 1%nat ["a"; "b"];; LogPayload_SetTags 1%nat ["c"])
      (world_of LogPayload_zero) = Returned tt w' ∧
    w' = set_heap (<[1%nat := set_Tags ["c"] LogPayload_zero]>
                     (heap (world_of LogPayload_zero)))
           (world_of LogPayload_zero) ∧
    Tags <$> heap w' !! 1%nat = Some ["c"].
Proof.
  apply (SetTags_replaces 1%nat LogPayload_zero ["a"; "b"] ["c"]
           (world_of LogPayload_zero)).
  reflexivity.
Defined.

Lemma append_empty_r (s : string) : s +:+ "" = s.
Proof.
  induction s as [|c s IH]; [reflexivity|].
  change (String c (s +:+ "") = String c s). congruence.
Qed.

Lemma append_String c (s t : string) : String c s +:+ t = String c (s +:+ t).
Proof. reflexivity. Qed.

Lemma append_empty_l (s : string) : "" +:+ s = s.
Proof. reflexivity. Qed.

Lemma append_append (s t u : string) : (s +:+ t) +:+ u = s +:+ (t +:+ u).
Proof.
  induction s as [|c s IH]; [reflexivity|].
  change (String c ((s +:+ t) +:+ u) = String c (s +:+ (t +:+ u))).
  congruence.
Qed.

(** Text, concatenated, with its literal parts unfolded. *)
Ltac string_norm :=
  unfold LF;
  repeat (rewrite append_append || rewrite append_String ||
          rewrite append_empty_l || rewrite append_empty_r).

(** C6. For every record, [Exception] returns
    ["<message> -- panic: <message>\n<backtrace>"], the backtrace joined
    one frame per line; the world is left as it was. *)
Theorem Exception_renders `{FmtVerbs} payload r w :
  heap w !! payload = Some r →
  LogPayload_Exception payload w = Returned (exception_text r) w.
Proof.
  intros E. unfold LogPayload_Exception.
  rewrite (bind_Returned _ _ _ _ _ (deref_Some _ _ _ E)).
  unfold mret, M_ret. f_equal.
  apply (Sprintf_verbs _
    [OpString (Message r); OpString "panic"; OpString (Message r);
     OpString (strings_Join (Backtrace r) LF)]).
  unfold exception_text. string_norm. cbn. by string_norm.
Qed.

#[local] Instance verbs_fmt_verbs : @FmtVerbs verbs_fmt.
Proof.
  intros format ops out E.
  assert (any_of (H := verbs_fmt) <$> ops = ops) as ->.
  { clear E. induction ops as [|o ops IH]; [done|].
    rewrite fmap_cons, IH. by destruct o. }
  cbn. by rewrite E.
Qed.

Lemma Exception_renders_witness :
  heap (world_of boom) !! 1%nat = Some boom ∧
  LogPayload_Exception (H := verbs_fmt) 1%nat (world_of boom) =
    Returned ("boom -- panic: boom" +:+ LF +:+ "f.go:10 g()" +:+ LF +:+
              "f.go:20 h()") (world_of boom).
Proof.
  split; [reflexivity|].
  exact (Exception_renders (H := verbs_fmt) 1%nat boom (world_of boom)
           eq_refl).
Defined.

(** ** The known fields *)

Section KnownFields.
Context `{Fmt}.

Lemma known_fields_is_filled w r : known_fields_filled w r (known_fields w r).
Proof.
  unfold known_fields_filled, known_fields.
  destruct (decide (Application r = "")); done.
Qed.

Lemma setKnownFields_run payload r w :
  heap w !! payload = Some r →
  (Application r = "" → os_Args w ≠ []) →
  LogPayload_setKnownFields payload w = Returned tt (finalized payload r 1 w).
Proof.
  intros E Hargs. destruct w as [h args pid now hn st lg]. simpl in *.
  unfold LogPayload_setKnownFields, finalized, known_fields, hostname_diagnostic,
    resolved_hostname, os_Args_0, os_Hostname, log_Printf, update, deref, gets,
    modify, mbind, M_bind, mret, M_ret.
  simpl. rewrite E.
  destruct (decide (Application r = "")) as [Ha|Ha];
    [destruct args as [|a args]; [by destruct Hargs|]|];
    destruct hn as [name|e];
    repeat (progress (simpl; rewrite ?E, ?lookup_insert_eq));
    rewrite ?insert_insert_eq, ?app_nil_r; reflexivity.
Qed.

(** When the host name does not resolve, [setKnownFields] still returns:
    the host name of the record is empty and the standard logger has one
    more line. *)
Lemma setKnownFields_unresolved payload r w e :
  heap w !! payload = Some r →
  (Application r = "" → os_Args w ≠ []) →
  hostname w = inr e →
  ∃ w' r',
    LogPayload_setKnownFields payload w = Returned tt w' ∧
    heap w' !! payload = Some r' ∧ HostName r' = "" ∧
    log_std w' =
      log_std w ++
      [Sprintf ("Error getting hostname: %v" +:+ LF) [any_error e]].
Proof.
  intros E Hargs He. exists (finalized payload r 1 w), (known_fields w r).
  split; [by apply setKnownFields_run|].
  split; [apply lookup_insert_eq|].
  unfold finalized, known_fields, hostname_diagnostic, resolved_hostname.
  rewrite He. done.
Qed.

End KnownFields.

(** ** The dispatcher *)

Lemma invoke_Returned m lgr payload s w' :
  method m lgr payload (world s) = Returned tt w' →
  invoke m lgr payload s =
    Returned tt (mkMachine w' (calls s ++ [mkCall m lgr payload])).
Proof. intros E. unfold invoke. by rewrite E. Qed.

Lemma invoke_Panicked m lgr payload s v w' :
  method m lgr payload (world s) = Panicked v w' →
  invoke m lgr payload s =
    Panicked v (mkMachine w' (calls s ++ [mkCall m lgr payload])).
Proof. intros E. unfold invoke. by rewrite E. Qed.

Lemma deliveries_cons lgr ml payload :
  deliveries (lgr :: ml) payload = mkCall MLog lgr payload :: deliveries ml payload.
Proof. reflexivity. Qed.

(** The loop over sinks that all return: each is called once, in order,
    with the same pointer, and the world is what the sinks made of it. *)
Lemma range_Log_returns payload ml : ∀ s,
  sinks_return ml →
  for_range ml (λ lgr, invoke MLog lgr payload) s =
    Returned tt (mkMachine (logged payload ml (world s))
                   (calls s ++ deliveries ml payload)).
Proof.
  induction ml as [|lgr ml IH]; intros s Hret.
  - destruct s. cbn. by rewrite app_nil_r.
  - apply Forall_cons in Hret as [Hlgr Hml].
    destruct (Hlgr payload (world s)) as [w' E].
    cbn [for_range].
    rewrite (bind_Returned _ _ _ _ _ (invoke_Returned MLog _ _ _ _ E)).
    rewrite (IH _ Hml). cbn [world calls logged foldl].
    rewrite E, deliveries_cons, <- app_assoc. reflexivity.
Qed.

(** The loop stops at the first sink that panics: the sinks after it are
    not called, and its panic is the loop's. *)
Lemma range_Log_panics payload ml1 lgr ml2 v w' : ∀ s,
  sinks_return ml1 →
  Log lgr payload (logged payload ml1 (world s)) = Panicked v w' →
  for_range (ml1 ++ lgr :: ml2) (λ lgr, invoke MLog lgr payload) s =
    Panicked v (mkMachine w' (calls s ++ deliveries (ml1 ++ [lgr]) payload)).
Proof.
  induction ml1 as [|lgr1 ml1 IH]; intros s Hret E.
  - cbn [app for_range].
    by rewrite (bind_Panicked _ _ _ _ _ (invoke_Panicked MLog _ _ _ _ _ E)).
  - apply Forall_cons in Hret as [Hlgr Hml].
    destruct (Hlgr payload (world s)) as [w1 E1].
    cbn [logged foldl] in E. rewrite E1 in E.
    rewrite <- app_comm_cons. cbn [for_range].
    rewrite (bind_Returned _ _ _ _ _ (invoke_Returned MLog _ _ _ _ E1)).
    rewrite (IH (mkMachine w1 (calls s ++ [mkCall MLog lgr1 payload])) Hml E).
    cbn [calls].
    rewrite <- app_comm_cons, deliveries_cons, <- app_assoc. reflexivity.
Qed.

Lemma Log_is_range ml level msg payload :
  MultiSemanticLogger_Log ml level msg payload =
  for_range ml (λ lgr, invoke MLog lgr payload).
Proof.
  unfold MultiSemanticLogger_Log. by destruct (switch_case level _).
Qed.

Lemma range_Log_invariant (I : World → Prop) payload ml : ∀ s,
  Forall (λ lgr, ∀ w, I w → I (outcome_state (Log lgr payload w))) ml →
  I (world s) →
  I (world (outcome_state
              (for_range ml (λ lgr, invoke MLog lgr payload) s))).
Proof.
  induction ml as [|lgr ml IH]; intros s Hinv Hs; [done|].
  apply Forall_cons in Hinv as [Hlgr Hml]. specialize (Hlgr _ Hs).
  cbn [for_range]. unfold mbind, M_bind, invoke. cbn [method].
  destruct (Log lgr payload (world s)) as [[] w1|v w1]; [|done].
  by apply IH.
Qed.

Lemma range_Log_returns_from payload ml : ∀ s,
  sinks_return_from payload ml (world s) →
  for_range ml (λ lgr, invoke MLog lgr payload) s =
    Returned tt (mkMachine (logged payload ml (world s))
                   (calls s ++ deliveries ml payload)).
Proof.
  induction ml as [|lgr ml IH]; intros s Hret.
  - destruct s. cbn. by rewrite app_nil_r.
  - destruct Hret as (w' & E & Hml).
    cbn [for_range].
    rewrite (bind_Returned _ _ _ _ _ (invoke_Returned MLog _ _ _ _ E)).
    rewrite (IH (mkMachine w' (calls s ++ [mkCall MLog lgr payload])) Hml).
    cbn [world calls logged foldl].
    rewrite E, deliveries_cons, <- app_assoc. reflexivity.
Qed.

Lemma sinks_return_discard n : sinks_return (replicate n discard).
Proof.
  apply Forall_replicate. intros payload w. by exists w.
Qed.

(** A sink whose [Log] panics keeps the sinks after it from being called:
    here the third sink is not given the record. *)
Lemma Log_skips_sinks_after_a_panic :
  MultiSemanticLogger_Log [discard; faulty; discard] INFO "m" 1%nat
      (mkMachine (world_of boom) []) =
    Panicked (PanicRuntime "sink failed")
      (mkMachine (world_of boom)
         [mkCall MLog discard 1%nat; mkCall MLog faulty 1%nat]) ∧
  calls (outcome_state
           (MultiSemanticLogger_Log [discard; faulty; discard] INFO "m" 1%nat
              (mkMachine (world_of boom) []))) ≠
    deliveries [discard; faulty; discard] 1%nat.
Proof.
  split; [reflexivity|].
  intros E. apply (f_equal length) in E. cbn in E. discriminate.
Qed.

(** C3. For every level, standard or custom, [Log] on a dispatcher whose
    sinks return from [Log] when they are called in turn delivers the same
    payload pointer to the [Log] of each sink, exactly once and in the
    order of the sequence; the dispatcher itself writes nothing: the world
    afterwards is the one the sinks' own [Log] methods produce, run one
    after the other on the caller's world. *)
Theorem Log_delivers_in_order ml level msg payload s :
  sinks_return_from payload ml (world s) →
  MultiSemanticLogger_Log ml level msg payload s =
    Returned tt (mkMachine (logged payload ml (world s))
                   (calls s ++ deliveries ml payload)).
Proof.
  intros Hret. rewrite Log_is_range. by apply range_Log_returns_from.
Qed.

Lemma Log_delivers_in_order_witness :
  sinks_return_from 1%nat [known_fields_sink (H := verbs_fmt); discard]
    (world_of boom) ∧
  MultiSemanticLogger_Log [known_fields_sink (H := verbs_fmt); discard] 7 "m"
      1%nat (mkMachine (world_of boom) []) =
    Returned tt
      (mkMachine
         (logged 1%nat [known_fields_sink (H := verbs_fmt); discard]
            (world_of boom))
         [mkCall MLog (known_fields_sink (H := verbs_fmt)) 1%nat;
          mkCall MLog discard 1%nat]).
Proof.
  assert (Hret : sinks_return_from 1%nat
                   [known_fields_sink (H := verbs_fmt); discard]
                   (world_of boom)).
  { eexists. split; [vm_compute; reflexivity|].
    eexists. split; [reflexivity|exact I]. }
  split; [exact Hret|].
  exact (Log_delivers_in_order [known_fields_sink (H := verbs_fmt); discard]
           7 "m" 1%nat (mkMachine (world_of boom) []) Hret).
Defined.

(** X22. [Fatal] at a standard level: every sink is given the payload through
    [Log], once and in order, and after the last has returned the
    dispatcher panics, once, with the payload pointer. *)
Lemma Fatal_standard_level ml level msg payload s :
  level ∈ LogLevels →
  sinks_return ml →
  MultiSemanticLogger_Fatal ml level msg payload s =
    Panicked (PanicPayload payload)
      (mkMachine (logged payload ml (world s))
         (calls s ++ deliveries ml payload)).
Proof.
  intros Hl Hret. unfold MultiSemanticLogger_Fatal.
  apply switch_case_elem_of in Hl. unfold LogLevels in Hl. rewrite Hl.
  by rewrite (bind_Returned _ _ _ _ _ (range_Log_returns payload ml s Hret)).
Qed.

(** X23. [Fatal] at any other level: no sink is called; the dispatcher
    panics with the payload pointer right away. *)
Lemma Fatal_custom_level ml level msg payload s :
  level ∉ LogLevels →
  MultiSemanticLogger_Fatal ml level msg payload s =
    Panicked (PanicPayload payload) s.
Proof.
  intros Hl. unfold MultiSemanticLogger_Fatal.
  apply switch_case_not_elem_of in Hl. unfold LogLevels in Hl. by rewrite Hl.
Qed.

(** C1. At the custom level 6, [Fatal] on a dispatcher with one sink
    panics with the payload without having called the sink, where [Log]
    at the same level delivers the payload to it. *)
Theorem Fatal_custom_level_calls_no_sink :
  MultiSemanticLogger_Fatal [discard] 6 "m" 1%nat
      (mkMachine (world_of boom) []) =
    Panicked (PanicPayload 1%nat) (mkMachine (world_of boom) []) ∧
  MultiSemanticLogger_Log [discard] 6 "m" 1%nat
      (mkMachine (world_of boom) []) =
    Returned tt (mkMachine (world_of boom) [mkCall MLog discard 1%nat]).
Proof. split; reflexivity. Qed.

(** C10. [msg] is not read: two calls of [Log], or of [Fatal], that
    differ in [msg] alone have the same outcome, that is the same calls
    on the sinks with the same payload, the same world and, for [Fatal],
    the same panic value. *)
Theorem msg_is_not_read ml level msg msg' payload s :
  MultiSemanticLogger_Log ml level msg payload s =
    MultiSemanticLogger_Log ml level msg' payload s ∧
  MultiSemanticLogger_Fatal ml level msg payload s =
    MultiSemanticLogger_Fatal ml level msg' payload s.
Proof. split; reflexivity. Qed.

(** ** The known fields and the dispatcher *)

(** Without a sink that does it, dispatching through [Log] leaves the
    known fields of the record as they were: here the application stays
    empty and the pid zero. *)
Lemma Log_leaves_known_fields :
  ∃ s' r',
    MultiSemanticLogger_Log [] INFO "m" 1%nat (mkMachine (world_of boom) [])
      = Returned tt s' ∧
    heap (world s') !! 1%nat = Some r' ∧
    ¬ known_fields_filled (world_of boom) boom r'.
Proof.
  exists (mkMachine (world_of boom) []), boom.
  split; [reflexivity|]. split; [reflexivity|].
  intros (Happ & _). cbn in Happ. discriminate.
Qed.

Section KnownFieldsFilled.
Context `{Fmt}.

(** C2. The dispatcher's [Log] does not run the finalize step: it leaves
    the record as the sinks leave it, so that a record no sink changes is
    after the dispatch what it was before.  It is [setKnownFields] that
    fills the known fields: called on a record, with [os.Args] holding a
    first element if the application is still empty, it returns, and
    afterwards the record's application is the program's invocation name
    if it was empty (unchanged otherwise), its pid the process id, its
    time the current time and its host name the resolved one, empty when
    the resolution fails; a failure is written to the standard logger, in
    one line, and is not raised. *)
Theorem known_fields_filled_by_setKnownFields ml level msg payload r s w :
  (Forall (λ lgr, ∀ w0, heap w0 !! payload = Some r →
             heap (outcome_state (Log lgr payload w0)) !! payload = Some r)
     ml →
   heap (world s) !! payload = Some r →
   heap (world (outcome_state
                  (MultiSemanticLogger_Log ml level msg payload s)))
     !! payload = Some r) ∧
  (heap w !! payload = Some r →
   (Application r = "" → os_Args w ≠ []) →
   ∃ w' r',
     LogPayload_setKnownFields payload w = Returned tt w' ∧
     heap w' !! payload = Some r' ∧
     known_fields_filled w r r' ∧
     log_std w' = log_std w ++ hostname_diagnostic w ∧
     ∀ e, hostname w = inr e →
          HostName r' = "" ∧
          log_std w' =
            log_std w ++
            [Sprintf ("Error getting hostname: %v" +:+ LF) [any_error e]]).
Proof.
  split.
  - intros Hinv Hs. rewrite Log_is_range.
    by apply (range_Log_invariant (λ w0, heap w0 !! payload = Some r)).
  - intros E Hargs. exists (finalized payload r 1 w), (known_fields w r).
    split; [by apply setKnownFields_run|].
    split; [apply lookup_insert_eq|].
    split; [apply known_fields_is_filled|].
    split; [cbn; by rewrite app_nil_r|].
    intros e He.
    unfold finalized, known_fields, hostname_diagnostic, resolved_hostname.
    rewrite He. done.
Qed.

End KnownFieldsFilled.

Lemma known_fields_filled_by_setKnownFields_witness :
  heap (world (outcome_state
                 (MultiSemanticLogger_Log [discard; faulty] INFO "m" 1%nat
                    (mkMachine (world_of boom) []))))
    !! 1%nat = Some boom ∧
  ∃ w' r',
    LogPayload_setKnownFields (H := verbs_fmt) 1%nat (world_unresolved boom)
      = Returned tt w' ∧
    heap w' !! 1%nat = Some r' ∧
    known_fields_filled (world_unresolved boom) boom r' ∧
    log_std w' =
      log_std (world_unresolved boom) ++
      hostname_diagnostic (H := verbs_fmt) (world_unresolved boom) ∧
    ∀ e, hostname (world_unresolved boom) = inr e →
         HostName r' = "" ∧
         log_std w' =
           log_std (world_unresolved boom) ++
           [Sprintf (Fmt := verbs_fmt) ("Error getting hostname: %v" +:+ LF)
              [any_error (Fmt := verbs_fmt) e]].
Proof.
  destruct (known_fields_filled_by_setKnownFields (H := verbs_fmt)
              [discard; faulty] INFO "m" 1%nat boom
              (mkMachine (world_of boom) []) (world_unresolved boom))
    as [Hdispatch Hfill].
  split.
  - apply Hdispatch; [|reflexivity].
    repeat constructor; intros w0 Hw0; exact Hw0.
  - apply Hfill; [reflexivity|]. intros _. discriminate.
Defined.

(** ** The stack helpers *)

Lemma runtime_Caller_true stack skip pc file line :
  runtime_Caller stack skip = (pc, file, line, true) →
  stack !! skip = Some (mkFrame pc file line).
Proof.
  unfold runtime_Caller. destruct (stack !! skip) as [[]|]; [|discriminate].
  cbn. congruence.
Qed.

Lemma runtime_Caller_false stack skip pc file line :
  runtime_Caller stack skip = (pc, file, line, false) →
  stack !! skip = None.
Proof.
  unfold runtime_Caller. by destruct (stack !! skip).
Qed.

Section StackHelpers.
Context `{Fmt}.

(** From [skip] on, the loop adds one line for each frame left on the
    stack, innermost first, and stops after the outermost. *)
Lemma genStacktrace_loop_frames w stack skip stacktrace :
  genStacktrace_loop w stack skip stacktrace =
  stacktrace ++ (traceLine w <$> drop skip stack).
Proof.
  funelim (genStacktrace_loop w stack skip stacktrace).
  - pose proof (runtime_Caller_true _ _ _ _ _ e) as E.
    match goal with IH : genStacktrace_loop _ _ _ _ = _ ++ _ |- _ =>
      rewrite IH end.
    rewrite (drop_S _ _ _ E), fmap_cons, <- app_assoc. reflexivity.
  - pose proof (runtime_Caller_false _ _ _ _ _ e) as E.
    apply lookup_ge_None in E. rewrite drop_ge by done.
    by rewrite app_nil_r.
Qed.

Lemma traceLine_verbs `{!FmtVerbs} w fr :
  traceLine w fr = frame_descriptor w fr +:+ LF.
Proof.
  unfold traceLine.
  apply (Sprintf_verbs _
    [OpString (frame_file fr); OpInt (frame_line fr);
     OpString (frame_function w fr)]).
  unfold frame_descriptor. string_norm. cbn. by string_norm.
Qed.

(** C4. [genStacktrace] returns, and its result has one descriptor for
    each frame of the stack above its own, innermost caller first and
    oldest last, as many as [runtime.Caller] reports before [ok] is
    false; each descriptor is ["file:line functionName()"] followed by a
    line feed. *)
Theorem genStacktrace_frames `{!FmtVerbs} stack w :
  genStacktrace stack w =
    Returned ((λ fr, frame_descriptor w fr +:+ LF) <$> drop 1 stack) w ∧
  (∀ skip, snd (runtime_Caller stack skip) = true ↔ (skip < length stack)%nat).
Proof.
  split.
  - unfold genStacktrace, gets. rewrite genStacktrace_loop_frames.
    cbn [app]. f_equal. apply list_fmap_ext. intros _ fr _.
    apply traceLine_verbs.
  - intros skip. unfold runtime_Caller.
    destruct (stack !! skip) as [fr|] eqn:E; cbn.
    + apply lookup_lt_Some in E. done.
    + apply lookup_ge_None in E. split; [done|lia].
Qed.

End StackHelpers.

(** ** The message of a new record *)







Lemma genStacktrace_frames_witness :
  genStacktrace (H := verbs_fmt) stack_g_h (world_of boom) =
    Returned ["f.go:10 main.g()" +:+ LF; "f.go:20 main.h()" +:+ LF]
      (world_of boom) ∧
  (∀ skip, snd (runtime_Caller stack_g_h skip) = true ↔
           (skip < length stack_g_h)%nat).
Proof.
  exact (genStacktrace_frames (H := verbs_fmt) stack_g_h (world_of boom)).
Defined.

(** The descriptors [genStacktrace] returns are not of the bare form
    ["file:line functionName()"]: each ends with a line feed. *)
Lemma genStacktrace_not_bare_descriptors :
  genStacktrace (H := verbs_fmt) stack_g_h (world_of boom) ≠
    Returned (frame_descriptor (world_of boom) <$> drop 1 stack_g_h)
      (world_of boom).
Proof.
  intros E.
  apply (f_equal (λ o, match o with
                       | Returned l _ => l
                       | Panicked _ _ => []
                       end)) in E.
  vm_compute in E. discriminate.
Qed.

(** * Further properties of the code *)

(** ** Severity levels, further *)

Lemma elem_of_LogLevels (level : LogLevel) :
  level ∈ LogLevels ↔ (0 ≤ level ≤ 5)%Z.
Proof.
  unfold LogLevels, TRACE, DEBUG, INFO, WARN, ERROR, FATAL.
  rewrite !elem_of_cons, elem_of_nil. lia.
Qed.

Lemma LogLevel_String_custom (level : LogLevel) :
  level ∉ LogLevels → LogLevel_String level = "CUSTOM".
Proof.
  intros Hn. unfold LogLevel_String.
  rewrite !switch_case_not_elem_of; [done|..];
    intros E%list_elem_of_singleton; subst; apply Hn; unfold LogLevels;
    set_solver.
Qed.

Lemma LogLevel_String_standard (level : LogLevel) :
  level ∈ LogLevels →
  LogLevels !! Z.to_nat level = Some level ∧
  ["TRACE"; "DEBUG"; "INFO"; "WARN"; "ERROR"; "FATAL"] !! Z.to_nat level =
    Some (LogLevel_String level).
Proof.
  intros Hl%elem_of_LogLevels.
  assert (level = 0 ∨ level = 1 ∨ level = 2 ∨ level = 3 ∨ level = 4 ∨
          level = 5) as Hc by lia.
  destruct Hc as [->|[->|[->|[->|[->| ->]]]]]; split; reflexivity.
Qed.

Lemma standard_name_not_custom (n : nat) :
  ["TRACE"; "DEBUG"; "INFO"; "WARN"; "ERROR"; "FATAL"] !! n ≠ Some "CUSTOM".
Proof. do 6 (destruct n as [|n]; [discriminate|]). discriminate. Qed.

(** X1. [LessSevereThan] is a strict total order on all levels: no level
    is less severe than itself, the relation is transitive, and of two
    different levels exactly one is less severe than the other. *)
Theorem LessSevereThan_strict_total_order :
  (∀ a, LogLevel_LessSevereThan a a = false) ∧
  (∀ a b c, LogLevel_LessSevereThan a b = true →
            LogLevel_LessSevereThan b c = true →
            LogLevel_LessSevereThan a c = true) ∧
  (∀ a b, a ≠ b →
          LogLevel_LessSevereThan a b = negb (LogLevel_LessSevereThan b a)).
Proof.
  unfold LogLevel_LessSevereThan. split; [|split].
  - intros a. apply Z.ltb_irrefl.
  - intros a b c Hab%Z.ltb_lt Hbc%Z.ltb_lt. apply Z.ltb_lt. lia.
  - intros a b Hne.
    destruct (Z.ltb_spec a b), (Z.ltb_spec b a); cbn; try reflexivity; lia.
Qed.

Lemma LessSevereThan_strict_total_order_witness :
  LogLevel_LessSevereThan DEBUG DEBUG = false ∧
  LogLevel_LessSevereThan TRACE 7 = true ∧
  LogLevel_LessSevereThan WARN (-3) = negb (LogLevel_LessSevereThan (-3) WARN).
Proof.
  destruct LessSevereThan_strict_total_order as (Hirr & Htrans & Htot).
  split; [apply Hirr|]. split.
  - apply (Htrans TRACE ERROR 7); reflexivity.
  - apply Htot. discriminate.
Defined.

(** X2. Two levels have the same display name exactly when they are the
    same level or are both custom: the names of the standard levels are
    pairwise different and none of them is ["CUSTOM"]. *)
Theorem LogLevel_String_same_name (a b : LogLevel) :
  LogLevel_String a = LogLevel_String b ↔
  a = b ∨ ((a ∉ LogLevels) ∧ (b ∉ LogLevels)).
Proof.
  destruct (decide (a ∈ LogLevels)) as [Ha|Ha],
           (decide (b ∈ LogLevels)) as [Hb|Hb].
  - split; [|intros [->|[? _]]; done].
    intros E. left.
    destruct (LogLevel_String_standard a Ha) as [_ Na].
    destruct (LogLevel_String_standard b Hb) as [_ Nb].
    rewrite E in Na.
    apply elem_of_LogLevels in Ha, Hb.
    assert (NoDup ["TRACE"; "DEBUG"; "INFO"; "WARN"; "ERROR"; "FATAL"]) as Hnd.
    { repeat (apply NoDup_cons_2;
        [rewrite ?elem_of_cons, elem_of_nil; intros Hin;
         repeat (destruct Hin as [Hin|Hin]; [discriminate|]); done|]).
      apply NoDup_nil_2. }
    pose proof (NoDup_lookup _ _ _ _ Hnd Na Nb). lia.
  - rewrite (LogLevel_String_custom b Hb).
    destruct (LogLevel_String_standard a Ha) as [_ Na].
    split; [|intros [->|[? _]]; done].
    intros E. rewrite E in Na. by apply standard_name_not_custom in Na.
  - rewrite (LogLevel_String_custom a Ha).
    destruct (LogLevel_String_standard b Hb) as [_ Nb].
    split; [|intros [->|[_ ?]]; done].
    intros E. rewrite <- E in Nb. by apply standard_name_not_custom in Nb.
  - rewrite (LogLevel_String_custom a Ha), (LogLevel_String_custom b Hb).
    split; [intros _; by right|done].
Qed.

(** X3. A level is displayed as ["CUSTOM"] exactly when it is less severe
    than TRACE or FATAL is less severe than it: the custom levels lie
    below or above the standard ones, never between two of them. *)
Theorem LogLevel_String_custom_iff_outside (level : LogLevel) :
  LogLevel_String level = "CUSTOM" ↔
  LogLevel_LessSevereThan level TRACE = true ∨
  LogLevel_LessSevereThan FATAL level = true.
Proof.
  unfold LogLevel_LessSevereThan, TRACE, FATAL. rewrite !Z.ltb_lt.
  destruct (decide (level ∈ LogLevels)) as [Hl|Hl].
  - destruct (LogLevel_String_standard level Hl) as [_ Nl].
    apply elem_of_LogLevels in Hl. split; [|lia].
    intros E. rewrite E in Nl. by apply standard_name_not_custom in Nl.
  - split; [|intros _; by apply LogLevel_String_custom].
    intros _. rewrite elem_of_LogLevels in Hl. lia.
Qed.

(** ** The record, further *)

Lemma deref_None p w :
  heap w !! p = None → deref p w = Panicked nil_dereference w.
Proof. intros E. unfold deref. by rewrite E. Qed.

Section RecordFurther.
Context `{Fmt}.

(** X4. Called on a nil payload, each of [Exception], [setKnownFields]
    and [SetTags] panics with a nil dereference and has changed nothing:
    in particular [setKnownFields] has not written to the standard
    logger. *)
Theorem nil_payload_panics payload tags w :
  heap w !! payload = None →
  LogPayload_Exception payload w = Panicked nil_dereference w ∧
  LogPayload_setKnownFields payload w = Panicked nil_dereference w ∧
  LogPayload_SetTags payload tags w = Panicked nil_dereference w.
Proof.
  intros E. pose proof (deref_None _ _ E) as D. split; [|split].
  - unfold LogPayload_Exception. by rewrite (bind_Panicked _ _ _ _ _ D).
  - unfold LogPayload_setKnownFields. by rewrite (bind_Panicked _ _ _ _ _ D).
  - unfold LogPayload_SetTags, update. by rewrite (bind_Panicked _ _ _ _ _ D).
Qed.

(** [setKnownFields] in a process without arguments, on a record whose
    application is empty. *)
Lemma setKnownFields_no_args payload r w :
  heap w !! payload = Some r →
  Application r = "" →
  os_Args w = [] →
  LogPayload_setKnownFields payload w = Panicked index_out_of_range w.
Proof.
  intros E Ha Hargs. unfold LogPayload_setKnownFields.
  rewrite (bind_Returned _ _ _ _ _ (deref_Some _ _ _ E)).
  rewrite decide_True by done.
  apply bind_Panicked, bind_Panicked. unfold os_Args_0. by rewrite Hargs.
Qed.

(** X5. On a record behind a non-nil pointer, [setKnownFields] reads
    [os.Args[0]] only when the application is empty: it returns exactly
    when the application is set or [os.Args] is not empty, and otherwise it
    panics with an index out of range before it has written anything. *)
Theorem setKnownFields_returns_iff payload r w :
  heap w !! payload = Some r →
  ((∃ w', LogPayload_setKnownFields payload w = Returned tt w') ↔
   (Application r = "" → os_Args w ≠ [])) ∧
  ((Application r = "" ∧ os_Args w = []) →
   LogPayload_setKnownFields payload w = Panicked index_out_of_range w).
Proof.
  intros E. split; [split|].
  - intros [w' Hrun] Ha Hargs.
    by rewrite (setKnownFields_no_args _ _ _ E Ha Hargs) in Hrun.
  - intros Hargs. eexists. by apply (setKnownFields_run payload r).
  - intros [Ha Hargs]. by apply (setKnownFields_no_args payload r).
Qed.

(** X6. [setKnownFields] writes the four known fields of its record and
    nothing else: the record's other ten fields, every other payload of
    the heap and the process are as before, and the standard logger has
    at most grown. *)
Theorem setKnownFields_frame payload r w :
  heap w !! payload = Some r →
  (Application r = "" → os_Args w ≠ []) →
  ∃ w' r',
    LogPayload_setKnownFields payload w = Returned tt w' ∧
    heap w' !! payload = Some r' ∧
    (Level r', Message r', Action r', Tags r', Name r', UUID r', Table r',
     Backtrace r', Duration r', ThreadName r') =
    (Level r, Message r, Action r, Tags r, Name r, UUID r, Table r,
     Backtrace r, Duration r, ThreadName r) ∧
    (∀ q, q ≠ payload → heap w' !! q = heap w !! q) ∧
    (os_Args w', os_pid w', clock w', hostname w', symtab w') =
    (os_Args w, os_pid w, clock w, hostname w, symtab w) ∧
    log_std w `prefix_of` log_std w'.
Proof.
  intros E Hargs. exists (finalized payload r 1 w), (known_fields w r).
  split; [by apply setKnownFields_run|].
  split; [apply lookup_insert_eq|]. split.
  - unfold known_fields. by destruct (decide (Application r = "")).
  - split; [|split; [reflexivity|]].
    + intros q Hq. cbn. by apply lookup_insert_ne.
    + cbn. by apply prefix_app_r.
Qed.

(** X7. Running [setKnownFields] again at a later time changes one
    field of the record, its time, which becomes the later time: the
    other known fields keep the values of the first run. *)
Theorem setKnownFields_again_later payload r w now' :
  heap w !! payload = Some r →
  (Application r = "" → os_Args w ≠ []) →
  ∃ w1 r1 w2,
    LogPayload_setKnownFields payload w = Returned tt w1 ∧
    heap w1 !! payload = Some r1 ∧
    LogPayload_setKnownFields payload (set_clock now' w1) = Returned tt w2 ∧
    heap w2 = <[payload := set_Time now' r1]> (heap w1).
Proof.
  intros E Hargs.
  exists (finalized payload r 1 w), (known_fields w r),
    (finalized payload (known_fields w r) 1
       (set_clock now' (finalized payload r 1 w))).
  split; [by apply setKnownFields_run|].
  split; [apply lookup_insert_eq|]. split.
  - apply setKnownFields_run; [apply lookup_insert_eq|].
    cbn. intros Ha. apply Hargs. unfold known_fields in Ha.
    by destruct (decide (Application r = "")).
  - cbn. f_equal. unfold known_fields. cbn.
    destruct (decide (Application r = "")) as [Ha|Ha]; cbn;
      case_decide; done.
Qed.

(** X8. [SetTags] and [setKnownFields] write different fields: on a
    record for which [setKnownFields] returns, calling the two in either
    order gives the same world. *)
Theorem SetTags_setKnownFields_commute payload r tags w :
  heap w !! payload = Some r →
  (Application r = "" → os_Args w ≠ []) →
  (LogPayload_SetTags payload tags;; LogPayload_setKnownFields payload) w =
  (LogPayload_setKnownFields payload;; LogPayload_SetTags payload tags) w ∧
  ∃ w', (LogPayload_SetTags payload tags;;
         LogPayload_setKnownFields payload) w = Returned tt w'.
Proof.
  intros E Hargs.
  rewrite (bind_Returned _ _ _ _ _ (SetTags_run _ tags _ _ E)).
  rewrite (bind_Returned _ _ _ _ _ (setKnownFields_run _ _ _ E Hargs)).
  rewrite (setKnownFields_run payload (set_Tags tags r));
    [|apply lookup_insert_eq|exact Hargs].
  rewrite (SetTags_run payload tags (known_fields w r));
    [|apply lookup_insert_eq].
  split; [|by eexists].
  f_equal. unfold finalized, set_heap. cbn. f_equal.
  rewrite !insert_insert_eq. f_equal.
  unfold known_fields. cbn. by destruct (decide (Application r = "")).
Qed.

End RecordFurther.

Lemma nil_payload_panics_witness :
  heap (world_of boom) !! 2%nat = None ∧
  LogPayload_Exception (H := verbs_fmt) 2%nat (world_of boom) =
    Panicked nil_dereference (world_of boom) ∧
  LogPayload_setKnownFields (H := verbs_fmt) 2%nat (world_of boom) =
    Panicked nil_dereference (world_of boom) ∧
  LogPayload_SetTags 2%nat ["a"] (world_of boom) =
    Panicked nil_dereference (world_of boom).
Proof.
  split; [reflexivity|].
  exact (nil_payload_panics (H := verbs_fmt) 2%nat ["a"] (world_of boom)
           eq_refl).
Defined.

Lemma setKnownFields_returns_iff_witness :
  heap (world_no_args LogPayload_zero) !! 1%nat = Some LogPayload_zero ∧
  LogPayload_setKnownFields (H := verbs_fmt) 1%nat
      (world_no_args LogPayload_zero) =
    Panicked index_out_of_range (world_no_args LogPayload_zero).
Proof.
  split; [reflexivity|].
  exact (proj2 (setKnownFields_returns_iff (H := verbs_fmt) 1%nat
                  LogPayload_zero (world_no_args LogPayload_zero) eq_refl)
               (conj eq_refl eq_refl)).
Defined.

Lemma setKnownFields_frame_witness :
  ∃ w' r',
    LogPayload_setKnownFields (H := verbs_fmt) 1%nat (world_unresolved boom)
      = Returned tt w' ∧
    heap w' !! 1%nat = Some r' ∧
    (Level r', Message r', Action r', Tags r', Name r', UUID r', Table r',
     Backtrace r', Duration r', ThreadName r') =
    (Level boom, Message boom, Action boom, Tags boom, Name boom, UUID boom,
     Table boom, Backtrace boom, Duration boom, ThreadName boom) ∧
    (∀ q, q ≠ 1%nat → heap w' !! q = heap (world_unresolved boom) !! q) ∧
    (os_Args w', os_pid w', clock w', hostname w', symtab w') =
    (os_Args (world_unresolved boom), os_pid (world_unresolved boom),
     clock (world_unresolved boom), hostname (world_unresolved boom),
     symtab (world_unresolved boom)) ∧
    log_std (world_unresolved boom) `prefix_of` log_std w'.
Proof.
  apply (setKnownFields_frame (H := verbs_fmt) 1%nat boom
           (world_unresolved boom)).
  - reflexivity.
  - intros _. discriminate.
Defined.

Lemma setKnownFields_again_later_witness :
  ∃ w1 r1 w2,
    LogPayload_setKnownFields (H := verbs_fmt) 1%nat (world_unresolved boom)
      = Returned tt w1 ∧
    heap w1 !! 1%nat = Some r1 ∧
    LogPayload_setKnownFields (H := verbs_fmt) 1%nat
      (set_clock 1700000060 w1) = Returned tt w2 ∧
    heap w2 = <[1%nat := set_Time 1700000060 r1]> (heap w1).
Proof.
  apply (setKnownFields_again_later (H := verbs_fmt) 1%nat boom
           (world_unresolved boom) 1700000060).
  - reflexivity.
  - intros _. discriminate.
Defined.

Lemma SetTags_setKnownFields_commute_witness :
  (LogPayload_SetTags 1%nat ["a"];;
   LogPayload_setKnownFields (H := verbs_fmt) 1%nat) (world_of boom) =
  (LogPayload_setKnownFields (H := verbs_fmt) 1%nat;;
   LogPayload_SetTags 1%nat ["a"]) (world_of boom) ∧
  ∃ w', (LogPayload_SetTags 1%nat ["a"];;
         LogPayload_setKnownFields (H := verbs_fmt) 1%nat) (world_of boom) =
        Returned tt w'.
Proof.
  apply (SetTags_setKnownFields_commute (H := verbs_fmt) 1%nat boom ["a"]
           (world_of boom)).
  - reflexivity.
  - intros _. discriminate.
Defined.

(** ** Construction, further *)

Lemma alloc_run r w :
  alloc r w =
    Returned (fresh (dom (heap w)))
      (set_heap (<[fresh (dom (heap w)) := r]> (heap w)) w).
Proof. reflexivity. Qed.

Lemma fresh_heap_None (w : World) : heap w !! fresh (dom (heap w)) = None.
Proof. apply not_elem_of_dom, is_fresh. Qed.

Section ConstructionFurther.
Context `{Fmt}.

Lemma NewLogPayload_run stack level formatStr vars w :
  NewLogPayload stack level formatStr vars w =
    alloc (mkLogPayload level (Sprintf formatStr vars) (caller_name stack w)
             "" 0 0 "" [] "" "" "" [] 0 "") w.
Proof.
  unfold NewLogPayload, getCallerName, runtime_Caller, caller_name.
  cbn [lookup list_lookup]. destruct (stack !! 1%nat); reflexivity.
Qed.

(** X9. Every call of [NewLogPayload] gives a record of its own: two
    calls in a row return different pointers, the second call leaves the
    first record as it was built, and the payloads that were in the heap
    before are untouched by both. *)
Theorem NewLogPayload_no_aliasing stack1 level1 format1 vars1
    stack2 level2 format2 vars2 w :
  ∃ p1 w1 p2 w2,
    NewLogPayload stack1 level1 format1 vars1 w = Returned p1 w1 ∧
    NewLogPayload stack2 level2 format2 vars2 w1 = Returned p2 w2 ∧
    p1 ≠ p2 ∧
    heap w2 !! p1 = heap w1 !! p1 ∧
    Message <$> heap w2 !! p1 = Some (Sprintf format1 vars1) ∧
    Message <$> heap w2 !! p2 = Some (Sprintf format2 vars2) ∧
    (∀ q r, heap w !! q = Some r → heap w2 !! q = Some r).
Proof.
  set (p1 := fresh (dom (heap w))).
  set (r1 := mkLogPayload level1 (Sprintf format1 vars1)
               (caller_name stack1 w) "" 0 0 "" [] "" "" "" [] 0 "").
  set (w1 := set_heap (<[p1 := r1]> (heap w)) w).
  set (p2 := fresh (dom (heap w1))).
  assert (Hne : p1 ≠ p2).
  { intros Heq. pose proof (fresh_heap_None w1) as Hf. fold p2 in Hf.
    rewrite <- Heq in Hf. unfold w1 in Hf. cbn in Hf.
    by rewrite lookup_insert_eq in Hf. }
  exists p1, w1, p2. eexists.
  split; [by rewrite NewLogPayload_run, alloc_run|].
  split; [by rewrite NewLogPayload_run, alloc_run|].
  split; [exact Hne|]. cbn.
  rewrite lookup_insert_ne by done. rewrite !lookup_insert_eq.
  repeat split; try done.
  intros q r Hq.
  assert (q ≠ p1).
  { intros ->. pose proof (fresh_heap_None w) as Hf. fold p1 in Hf. congruence. }
  assert (q ≠ p2).
  { intros ->. pose proof (fresh_heap_None w1) as Hf. fold p2 in Hf.
    unfold w1 in Hf. cbn in Hf. rewrite lookup_insert_ne in Hf by done.
    congruence. }
  by rewrite !lookup_insert_ne.
Qed.

(** X10. A record built by [NewLogPayload] and then given to
    [setKnownFields], in a process with an invocation name, is complete:
    the level, the rendered message and the caller's name from the
    construction, the invocation name as application, the process id, the
    current time and the resolved host name; no tags, no backtrace, no
    name, uuid, table, duration or thread name. *)
Theorem NewLogPayload_then_setKnownFields stack level formatStr vars w prog args :
  os_Args w = prog :: args →
  ∃ payload w',
    (p ← NewLogPayload stack level formatStr vars;
     LogPayload_setKnownFields p;; mret p) w = Returned payload w' ∧
    heap w !! payload = None ∧
    heap w' !! payload =
      Some (mkLogPayload level (Sprintf formatStr vars) (caller_name stack w)
              prog (os_pid w) (clock w) (resolved_hostname w)
              [] "" "" "" [] 0 "").
Proof.
  intros Hargs.
  set (r := mkLogPayload level (Sprintf formatStr vars) (caller_name stack w)
              "" 0 0 "" [] "" "" "" [] 0 "").
  set (p := fresh (dom (heap w))).
  set (w1 := set_heap (<[p := r]> (heap w)) w).
  assert (Hrun : LogPayload_setKnownFields p w1 =
                 Returned tt (finalized p r 1 w1)).
  { apply setKnownFields_run; [apply lookup_insert_eq|].
    intros _. cbn. by rewrite Hargs. }
  exists p, (finalized p r 1 w1). split; [|split].
  - rewrite (bind_Returned _ _ _ _ _
               (NewLogPayload_run stack level formatStr vars w)).
    by rewrite (bind_Returned _ _ _ _ _ Hrun).
  - apply fresh_heap_None.
  - cbn. rewrite lookup_insert_eq. unfold known_fields. cbn.
    by rewrite Hargs.
Qed.

(** X11. [getCallerName] does not fail on a stack that is shorter than
    [skip]: when no function contains the program counter 0, it returns
    the empty name, and the world is as before. *)
Theorem getCallerName_past_stack stack skip w :
  (length stack ≤ skip)%nat →
  symtab w !! 0 = None →
  getCallerName stack skip w = Returned "" w.
Proof.
  intros Hlen H0. unfold getCallerName, runtime_Caller.
  rewrite (lookup_ge_None_2 _ _ Hlen).
  unfold mbind, M_bind, gets, runtime_FuncForPC. by rewrite H0.
Qed.

End ConstructionFurther.

Lemma NewLogPayload_then_setKnownFields_witness :
  ∃ payload w',
    (p ← NewLogPayload (H := verbs_fmt) stack_new_g_h INFO "job %d of %s"
           [OpInt 3; OpString "batch"];
     LogPayload_setKnownFields (H := verbs_fmt) p;; mret p) (world_of boom)
      = Returned payload w' ∧
    heap (world_of boom) !! payload = None ∧
    heap w' !! payload =
      Some (mkLogPayload INFO "job 3 of batch" "main.g" "skynet" 4242
              1700000000 "node1" [] "" "" "" [] 0 "").
Proof.
  exact (NewLogPayload_then_setKnownFields (H := verbs_fmt) stack_new_g_h INFO
           "job %d of %s" [OpInt 3; OpString "batch"] (world_of boom)
           "skynet" [] eq_refl).
Defined.

Lemma getCallerName_past_stack_witness :
  (length stack_g_h ≤ 3)%nat ∧ symtab (world_of boom) !! 0 = None ∧
  getCallerName stack_g_h 3 (world_of boom) = Returned "" (world_of boom).
Proof.
  assert (Hlen : (length stack_g_h ≤ 3)%nat) by (cbn; lia).
  split; [exact Hlen|]. split; [reflexivity|].
  exact (getCallerName_past_stack stack_g_h 3 (world_of boom) Hlen eq_refl).
Defined.

(** ** The stack trace, further *)

Lemma strings_Join_lines (ds : list string) :
  strings_Join ((λ d, d +:+ LF) <$> ds) LF =
  match ds with
  | [] => ""
  | _ :: _ => strings_Join ds (LF +:+ LF) +:+ LF
  end.
Proof.
  unfold strings_Join. induction ds as [|d ds IH]; [reflexivity|].
  destruct ds as [|d' ds]; [reflexivity|].
  change (String.concat LF ((λ d, d +:+ LF) <$> d :: d' :: ds))
    with ((d +:+ LF) +:+ LF +:+
          String.concat LF ((λ d, d +:+ LF) <$> d' :: ds)).
  rewrite IH.
  change (String.concat (LF +:+ LF) (d :: d' :: ds))
    with (d +:+ (LF +:+ LF) +:+ String.concat (LF +:+ LF) (d' :: ds)).
  by rewrite !append_append.
Qed.

Section StacktraceFurther.
Context `{Fmt}.

Lemma genStacktrace_run stack w :
  genStacktrace stack w = Returned (traceLine w <$> drop 1 stack) w.
Proof.
  unfold genStacktrace, gets. by rewrite genStacktrace_loop_frames.
Qed.

Lemma Exception_run `{!FmtVerbs} payload r w :
  heap w !! payload = Some r →
  LogPayload_Exception payload w = Returned (exception_text r) w.
Proof.
  intros E. unfold LogPayload_Exception.
  rewrite (bind_Returned _ _ _ _ _ (deref_Some _ _ _ E)).
  unfold mret, M_ret. f_equal.
  apply (Sprintf_verbs _
    [OpString (Message r); OpString "panic"; OpString (Message r);
     OpString (strings_Join (Backtrace r) LF)]).
  unfold exception_text. string_norm. cbn. by string_norm.
Qed.

(** X12. Whatever the formatter, [genStacktrace] returns one line for
    each frame of the stack but its own, and none when it has no caller;
    it leaves the world as it was. *)
Theorem genStacktrace_length stack w :
  ∃ stacktrace,
    genStacktrace stack w = Returned stacktrace w ∧
    length stacktrace = (length stack - 1)%nat ∧
    (stacktrace = [] ↔ (length stack ≤ 1)%nat).
Proof.
  exists (traceLine w <$> drop 1 stack).
  split; [apply genStacktrace_run|].
  rewrite length_fmap, length_drop. split; [done|]. split.
  - intros E%fmap_nil_inv%(f_equal length).
    rewrite length_drop in E. cbn in E. lia.
  - intros Hlen. by rewrite drop_ge.
Qed.

(** X13. Called one function deeper, [genStacktrace] returns one more
    line, in front: the line of the new caller, followed by what it
    returns when called from the frames below.  Its own frame plays no
    part in the result. *)
Theorem genStacktrace_deeper own own' fr stack w :
  ∃ stacktrace,
    genStacktrace (own' :: stack) w = Returned stacktrace w ∧
    genStacktrace (own :: fr :: stack) w =
      Returned (traceLine w fr :: stacktrace) w.
Proof.
  exists (traceLine w <$> drop 1 (own' :: stack)).
  split; [apply genStacktrace_run|].
  rewrite genStacktrace_run. reflexivity.
Qed.

(** X14. The exception text of a record whose backtrace is what
    [genStacktrace] returned has its frames one blank line apart and ends
    with a line feed: the lines of [genStacktrace] end with a line feed
    and [Exception] joins them with another. *)
Theorem Exception_of_genStacktrace `{!FmtVerbs} payload r stack w :
  heap w !! payload = Some r →
  genStacktrace stack w = Returned (Backtrace r) w →
  LogPayload_Exception payload w =
    Returned
      (Message r +:+ " -- panic: " +:+ Message r +:+ LF +:+
       match drop 1 stack with
       | [] => ""
       | frames =>
           strings_Join (frame_descriptor w <$> frames) (LF +:+ LF) +:+ LF
       end) w.
Proof.
  intros E Hbt. rewrite (Exception_run _ _ _ E). f_equal.
  unfold exception_text. do 3 f_equal.
  rewrite genStacktrace_run in Hbt. injection Hbt as <-.
  rewrite (list_fmap_ext (traceLine w)
             (λ fr, frame_descriptor w fr +:+ LF) (drop 1 stack))
    by (intros; apply traceLine_verbs).
  rewrite (list_fmap_compose (frame_descriptor w) (λ d, d +:+ LF)).
  rewrite strings_Join_lines.
  by destruct (drop 1 stack).
Qed.

End StacktraceFurther.

Lemma Exception_of_genStacktrace_witness :
  ∃ r,
    heap (world_of r) !! 1%nat = Some r ∧
    genStacktrace (H := verbs_fmt) stack_g_h (world_of r) =
      Returned (Backtrace r) (world_of r) ∧
    LogPayload_Exception (H := verbs_fmt) 1%nat (world_of r) =
      Returned
        ("boom -- panic: boom" +:+ LF +:+
         "f.go:10 main.g()" +:+ LF +:+ LF +:+ "f.go:20 main.h()" +:+ LF)
        (world_of r).
Proof.
  set (r := mkLogPayload FATAL "boom" "" "" 0 0 "" [] "" "" ""
              ["f.go:10 main.g()" +:+ LF; "f.go:20 main.h()" +:+ LF] 0 "").
  exists r. split; [reflexivity|]. split; [reflexivity|].
  exact (Exception_of_genStacktrace (H := verbs_fmt) 1%nat r stack_g_h
           (world_of r) eq_refl eq_refl).
Defined.

(** ** The dispatcher, further *)

Lemma for_range_app {S A} (xs ys : list A) (body : A → M S unit) : ∀ s,
  for_range (xs ++ ys) body s = (for_range xs body;; for_range ys body) s.
Proof.
  induction xs as [|x xs IH]; intros s; [reflexivity|].
  cbn [app for_range]. unfold mbind, M_bind.
  destruct (body x s) as [[] s'|v s']; [|reflexivity].
  apply IH.
Qed.

Lemma range_Log_outcome payload ml : ∀ s,
  match for_range ml (λ lgr, invoke MLog lgr payload) s with
  | Returned _ s' =>
      sinks_return_from payload ml (world s) ∧
      s' = mkMachine (logged payload ml (world s))
             (calls s ++ deliveries ml payload)
  | Panicked v s' =>
      ∃ ml1 lgr ml2,
        ml = ml1 ++ lgr :: ml2 ∧
        sinks_return_from payload ml1 (world s) ∧
        Log lgr payload (logged payload ml1 (world s)) =
          Panicked v (world s') ∧
        calls s' = calls s ++ deliveries (ml1 ++ [lgr]) payload
  end.
Proof.
  induction ml as [|lgr ml IH]; intros s.
  - cbn. split; [done|]. destruct s. cbn. by rewrite app_nil_r.
  - cbn [for_range].
    destruct (Log lgr payload (world s)) as [[] w1|v w1] eqn:E.
    + rewrite (bind_Returned _ _ _ _ _ (invoke_Returned MLog _ _ _ _ E)).
      specialize (IH (mkMachine w1 (calls s ++ [mkCall MLog lgr payload]))).
      destruct (for_range ml _ _) as [[] s'|v s'].
      * destruct IH as [Hret ->]. split; [by exists w1|].
        cbn [world calls logged foldl].
        rewrite E, deliveries_cons, <- app_assoc. reflexivity.
      * destruct IH as (ml1 & lgr' & ml2 & -> & Hret & Hp & Hcalls).
        exists (lgr :: ml1), lgr', ml2. split; [reflexivity|].
        split; [by exists w1|]. cbn [world calls] in Hp, Hcalls.
        split.
        -- cbn [logged foldl]. rewrite E. exact Hp.
        -- rewrite Hcalls, <- app_comm_cons, deliveries_cons, <- app_assoc.
           reflexivity.
    + rewrite (bind_Panicked _ _ _ _ _ (invoke_Panicked MLog _ _ _ _ _ E)).
      exists [], lgr, ml. split; [reflexivity|]. split; [exact I|].
      split; [exact E|reflexivity].
Qed.

(** X15. Whatever the sinks do, [Log] does one of two things.  Either it
    returns: then every sink of the sequence has been called and has
    returned, and the calls made are the [Log] of each sink, once and in
    order, with the payload given.  Or it panics with the value of a
    sink's panic: then the sinks before that sink have been called and
    have returned, that sink was called next, on the world they left, and
    panicked with that value, and no sink after it has been called.  Only
    the [Log] methods of the sinks are called, never [Fatal]. *)
Theorem Log_calls_are_a_prefix ml level msg payload s :
  match MultiSemanticLogger_Log ml level msg payload s with
  | Returned _ s' =>
      sinks_return_from payload ml (world s) ∧
      s' = mkMachine (logged payload ml (world s))
             (calls s ++ deliveries ml payload)
  | Panicked v s' =>
      ∃ ml1 lgr ml2,
        ml = ml1 ++ lgr :: ml2 ∧
        sinks_return_from payload ml1 (world s) ∧
        Log lgr payload (logged payload ml1 (world s)) =
          Panicked v (world s') ∧
        calls s' = calls s ++ deliveries (ml1 ++ [lgr]) payload
  end.
Proof. rewrite Log_is_range. apply range_Log_outcome. Qed.

(** X16. [Log] stops at the first sink that panics: the sinks before it
    have been called and have returned, the sinks after it are not called,
    and the panic of that sink, with its value, is the outcome of
    [Log]. *)
Theorem Log_stops_at_first_panic ml1 lgr ml2 level msg payload s v w' :
  sinks_return ml1 →
  Log lgr payload (logged payload ml1 (world s)) = Panicked v w' →
  MultiSemanticLogger_Log (ml1 ++ lgr :: ml2) level msg payload s =
    Panicked v
      (mkMachine w' (calls s ++ deliveries (ml1 ++ [lgr]) payload)).
Proof.
  intros Hret E. rewrite Log_is_range. by apply range_Log_panics.
Qed.

Lemma Log_stops_at_first_panic_witness :
  sinks_return [discard] ∧
  Log faulty 1%nat (logged 1%nat [discard] (world_of boom)) =
    Panicked (PanicRuntime "sink failed") (world_of boom) ∧
  MultiSemanticLogger_Log [discard; faulty; discard] WARN "m" 1%nat
      (mkMachine (world_of boom) []) =
    Panicked (PanicRuntime "sink failed")
      (mkMachine (world_of boom)
         [mkCall MLog discard 1%nat; mkCall MLog faulty 1%nat]).
Proof.
  split; [exact (sinks_return_discard 1)|]. split; [reflexivity|].
  exact (Log_stops_at_first_panic [discard] faulty [discard] WARN "m" 1%nat
           (mkMachine (world_of boom) []) _ _
           (sinks_return_discard 1) eq_refl).
Defined.

(** X17. A dispatcher made by [NewMultiSemanticLogger] of two lists of
    sinks, one after the other, logs as the dispatcher of the first list
    followed by the dispatcher of the second, at whatever levels and with
    whatever messages: the sinks are kept in argument order, and neither
    the level nor the message changes what [Log] does. *)
Theorem Log_of_appended_sinks loggers1 loggers2 level msg level1 msg1
    level2 msg2 payload s :
  MultiSemanticLogger_Log (NewMultiSemanticLogger (loggers1 ++ loggers2))
    level msg payload s =
  (MultiSemanticLogger_Log (NewMultiSemanticLogger loggers1) level1 msg1
     payload;;
   MultiSemanticLogger_Log (NewMultiSemanticLogger loggers2) level2 msg2
     payload) s.
Proof.
  unfold NewMultiSemanticLogger. rewrite !Log_is_range. apply for_range_app.
Qed.

(** X18. [Fatal] never returns: whatever the sinks do and whatever the
    level, its outcome is a panic. *)
Theorem Fatal_never_returns ml level msg payload s :
  ∃ v s', MultiSemanticLogger_Fatal ml level msg payload s = Panicked v s'.
Proof.
  unfold MultiSemanticLogger_Fatal, mbind, M_bind.
  destruct (switch_case level _).
  - destruct (for_range ml _ s) as [[] s'|v s']; by eexists _, _.
  - by eexists _, _.
Qed.

(** X19. At a standard level, [Fatal] is [Log] followed by the panic
    with the payload, whatever the sinks do: if a sink panics, its panic
    is the outcome, the later sinks are not called and the dispatcher's
    own panic with the payload does not happen. *)
Theorem Fatal_is_Log_then_panic ml level msg payload s :
  level ∈ LogLevels →
  MultiSemanticLogger_Fatal ml level msg payload s =
    (MultiSemanticLogger_Log ml level msg payload;;
     panic (PanicPayload payload)) s ∧
  ∀ ml1 lgr ml2 v w',
    ml = ml1 ++ lgr :: ml2 →
    sinks_return ml1 →
    Log lgr payload (logged payload ml1 (world s)) = Panicked v w' →
    MultiSemanticLogger_Fatal ml level msg payload s =
      Panicked v
        (mkMachine w' (calls s ++ deliveries (ml1 ++ [lgr]) payload)).
Proof.
  intros Hl%switch_case_elem_of. unfold LogLevels in Hl.
  assert (Heq : MultiSemanticLogger_Fatal ml level msg payload s =
                (MultiSemanticLogger_Log ml level msg payload;;
                 panic (PanicPayload payload)) s).
  { unfold MultiSemanticLogger_Fatal, MultiSemanticLogger_Log.
    by rewrite Hl. }
  split; [exact Heq|].
  intros ml1 lgr ml2 v w' -> Hret E. rewrite Heq, Log_is_range.
  apply bind_Panicked. by apply range_Log_panics.
Qed.

Lemma Fatal_is_Log_then_panic_witness :
  FATAL ∈ LogLevels ∧
  MultiSemanticLogger_Fatal [discard; faulty; discard] FATAL "m" 1%nat
      (mkMachine (world_of boom) []) =
    Panicked (PanicRuntime "sink failed")
      (mkMachine (world_of boom)
         [mkCall MLog discard 1%nat; mkCall MLog faulty 1%nat]).
Proof.
  assert (Hl : FATAL ∈ LogLevels).
  { apply switch_case_elem_of. reflexivity. }
  split; [exact Hl|].
  exact (proj2 (Fatal_is_Log_then_panic [discard; faulty; discard] FATAL "m"
                  1%nat (mkMachine (world_of boom) []) Hl)
               [discard] faulty [discard] _ _ eq_refl
               (sinks_return_discard 1) eq_refl).
Defined.

Lemma Fatal_standard_level_witness :
  ERROR ∈ LogLevels ∧ sinks_return [discard; discard] ∧
  MultiSemanticLogger_Fatal [discard; discard] ERROR "m" 1%nat
      (mkMachine (world_of boom) []) =
    Panicked (PanicPayload 1%nat)
      (mkMachine (world_of boom)
         [mkCall MLog discard 1%nat; mkCall MLog discard 1%nat]).
Proof.
  assert (Hl : ERROR ∈ LogLevels).
  { apply switch_case_elem_of. reflexivity. }
  split; [exact Hl|]. split; [exact (sinks_return_discard 2)|].
  exact (Fatal_standard_level [discard; discard] ERROR "m" 1%nat
           (mkMachine (world_of boom) []) Hl (sinks_return_discard 2)).
Defined.

Lemma Fatal_custom_level_witness :
  ((-1) ∉ LogLevels) ∧
  MultiSemanticLogger_Fatal [discard; faulty] (-1) "m" 1%nat
      (mkMachine (world_of boom) []) =
    Panicked (PanicPayload 1%nat) (mkMachine (world_of boom) []).
Proof.
  assert (Hl : (-1) ∉ LogLevels).
  { intros E%switch_case_elem_of. vm_compute in E. discriminate. }
  split; [exact Hl|].
  exact (Fatal_custom_level [discard; faulty] (-1) "m" 1%nat
           (mkMachine (world_of boom) []) Hl).
Defined.

(** ** Benchmarking through the dispatcher *)

Section BenchmarkInfo.
Context {Func : Type}.
Implicit Types (ml : list (Benchmarker Func)) (f : Func).

(** X20. [BenchmarkInfo] on a dispatcher whose sinks return from their
    [BenchmarkInfo] calls that method on every sink, once each and in the
    order of the sequence, with the level, the message and the function it
    was given, at every level; the world afterwards is the one the sinks'
    own methods produce, one after the other.  The function is handed to
    each sink: the dispatcher does not run it itself. *)
Theorem BenchmarkInfo_forwards_in_order ml level msg f s :
  Forall (λ lgr, ∀ w, ∃ w', BenchmarkInfo lgr level msg f w = Returned tt w')
    ml →
  MultiSemanticLogger_BenchmarkInfo ml level msg f s =
    Returned tt
      (mkBenchmarkMachine
         (foldl (λ w lgr, outcome_state (BenchmarkInfo lgr level msg f w))
            (benchmark_world s) ml)
         (benchmark_calls s ++ benchmarks ml level msg f)).
Proof.
  unfold MultiSemanticLogger_BenchmarkInfo. revert s.
  induction ml as [|lgr ml IH]; intros s Hret.
  - destruct s. cbn. by rewrite app_nil_r.
  - apply Forall_cons in Hret as [Hlgr Hml].
    destruct (Hlgr (benchmark_world s)) as [w' E].
    cbn [for_range]. unfold mbind, M_bind, invoke_BenchmarkInfo.
    rewrite E. rewrite (IH _ Hml). cbn. rewrite E. cbn.
    by rewrite <- app_assoc.
Qed.

(** X21. Whatever the sinks do, [BenchmarkInfo] calls the method of the
    first [n] sinks of the sequence, once each and in order: all of them
    if it returns; if a sink panics, the sinks after it are not called
    and the dispatcher panics with it. *)
Theorem BenchmarkInfo_calls_are_a_prefix ml level msg f s :
  ∃ n, (n ≤ length ml)%nat ∧
    benchmark_calls
      (outcome_state (MultiSemanticLogger_BenchmarkInfo ml level msg f s)) =
      benchmark_calls s ++ benchmarks (take n ml) level msg f ∧
    match MultiSemanticLogger_BenchmarkInfo ml level msg f s with
    | Returned _ _ => n = length ml
    | Panicked v _ =>
        (0 < n)%nat ∧
        ∃ lgr w w', ml !! (n - 1)%nat = Some lgr ∧
                    BenchmarkInfo lgr level msg f w = Panicked v w'
    end.
Proof.
  unfold MultiSemanticLogger_BenchmarkInfo. revert s.
  induction ml as [|lgr ml IH]; intros s.
  - exists 0%nat. cbn. by rewrite app_nil_r.
  - cbn [for_range]. unfold mbind, M_bind.
    destruct (invoke_BenchmarkInfo lgr level msg f s) as [[] s1|v s1] eqn:E1;
      unfold invoke_BenchmarkInfo in E1;
      destruct (BenchmarkInfo lgr level msg f (benchmark_world s))
        as [[] w1|v1 w1] eqn:E; simplify_eq/=.
    + destruct (IH (mkBenchmarkMachine w1
                      (benchmark_calls s ++ [mkBenchmarkCall lgr level msg f])))
        as (n & Hn & Hcalls & Hend).
      exists (S n). split; [lia|]. split.
      * rewrite Hcalls. cbn. by rewrite <- app_assoc.
      * destruct (for_range ml _ _) as [[] s2|v2 s2]; [lia|].
        destruct Hend as (Hpos & lgr' & w & w' & Hl & Hp).
        split; [lia|]. exists lgr', w, w'. split; [|done].
        destruct n as [|m]; [lia|].
        replace (S (S m) - 1)%nat with (S m) by lia.
        replace (S m - 1)%nat with m in Hl by lia. exact Hl.
    + exists 1%nat. split; [lia|]. split; [reflexivity|].
      split; [lia|]. by exists lgr, (benchmark_world s), w1.
Qed.

End BenchmarkInfo.

Lemma BenchmarkInfo_forwards_in_order_witness :
  Forall (λ lgr, ∀ w, ∃ w', BenchmarkInfo lgr 9 "load" 0%nat w = Returned tt w')
    [idle; idle] ∧
  MultiSemanticLogger_BenchmarkInfo [idle; idle] 9 "load" 0%nat
      (mkBenchmarkMachine (world_of boom) []) =
    Returned tt
      (mkBenchmarkMachine (world_of boom)
         [mkBenchmarkCall idle 9 "load" 0%nat;
          mkBenchmarkCall idle 9 "load" 0%nat]).
Proof.
  assert (Hret : Forall (λ lgr, ∀ w, ∃ w',
                   BenchmarkInfo lgr 9 "load" 0%nat w = Returned tt w')
                   [idle; idle]).
  { repeat constructor; intros w; by exists w. }
  split; [exact Hret|].
  exact (BenchmarkInfo_forwards_in_order [idle; idle] 9 "load" 0%nat
           (mkBenchmarkMachine (world_of boom) []) Hret).
Defined.

(** ** What the dispatcher leaves alone *)

(** X24. The dispatcher has no effect of its own on the world: a
    property of the world that the [Log] of every sink keeps, whether that
    sink returns or panics, still holds after [Log] and after [Fatal] of
    the dispatcher, at every level and however they end. *)
Theorem dispatcher_keeps_sink_invariants (I : World → Prop) ml level msg
    payload s :
  Forall (λ lgr, ∀ w, I w → I (outcome_state (Log lgr payload w))) ml →
  I (world s) →
  I (world (outcome_state (MultiSemanticLogger_Log ml level msg payload s))) ∧
  I (world (outcome_state (MultiSemanticLogger_Fatal ml level msg payload s))).
Proof.
  intros Hinv Hs. split.
  - rewrite Log_is_range. by apply range_Log_invariant.
  - unfold MultiSemanticLogger_Fatal, mbind, M_bind.
    destruct (switch_case level _); [|done].
    pose proof (range_Log_invariant I payload ml s Hinv Hs) as Hr.
    by destruct (for_range ml _ s) as [[] s'|v s'].
Qed.

Lemma dispatcher_keeps_sink_invariants_witness :
  heap (world (outcome_state
          (MultiSemanticLogger_Log [discard; faulty; discard] DEBUG "m" 1%nat
             (mkMachine (world_of boom) [])))) !! 1%nat = Some boom ∧
  heap (world (outcome_state
          (MultiSemanticLogger_Fatal [discard; faulty; discard] DEBUG "m"
             1%nat (mkMachine (world_of boom) [])))) !! 1%nat = Some boom.
Proof.
  apply (dispatcher_keeps_sink_invariants
           (λ w, heap w !! 1%nat = Some boom)
           [discard; faulty; discard] DEBUG "m" 1%nat
           (mkMachine (world_of boom) [])).
  - repeat constructor; intros w Hw; exact Hw.
  - reflexivity.
Defined.
